(** * ExpiredStorage: a key-value store wrapper with expiration times

    A shallow embedding of [dist/expired_storage.js] and of the custom
    storage class of the test-suite, together with the properties the
    specification states about them.

    Modelling conventions.
    - JavaScript values are the inductive type [value].  A number is a whole
      number, a decimal fraction, an infinity or [NaN].  Timestamps are whole
      epoch-seconds, far inside the range (magnitude below 2^53) in which
      JavaScript computes on whole numbers exactly and writes them in plain
      decimal; whole numbers are taken in that range.  A fraction is the
      number its decimal numeral denotes and arithmetic on fractions is
      exact, where JavaScript rounds to the nearest double (which shows from
      the 16th significant digit on).  The two zeros are one value: both are
      falsy and both are written [0], and nothing here divides by them.
    - Strings are [string]; the white space recognised by [parseInt] is the
      ASCII white space.
    - The wrapper mutates the store it was given and reads a clock; its
      methods are written in a small reader-state monad [M] over the store
      (the state) and the value of [getTimestamp()] (the environment).
    - The backing store is an interface ([Storage]); what the wrapper needs
      from it is the class [StorageLaws].  [testStorage] is the custom
      storage class of the tests, [localStorage] the storage of the browser;
      both satisfy [StorageLaws].
    - [JSON.stringify] and [JSON.parse] belong to the host: the wrapper is
      parameterised by them (class [JSON]); [hostJSON] is one instance. *)

From Stdlib Require Import ZArith Lia Ascii String.
From stdpp Require Import gmap strings list pretty.

Local Open Scope Z_scope.

(** ** JavaScript values *)

Module JS.

(** [Int z] is the whole number [z]; [Dec m e] is [m / 10^e], for a number
    that is not whole ([m] is then no multiple of 10; a [Dec m e] that does not
    meet this is read as the number [decimal m e] below); [Inf true] is
    [-Infinity]. *)
Inductive number : Type :=
  | Int (z : Z)
  | Dec (m : Z) (e : nat)
  | Inf (negative : bool)
  | NaN.

#[warnings="-register-all"]
Inductive value : Type :=
  | VUndefined
  | VNull
  | VBool (b : bool)
  | VNum (n : number)
  | VStr (s : string)
  | VArr (elems : list value)
  | VObj (props : list (string * value)).

(** [throw new Error(msg)]. *)
Inductive exn : Type :=
  | Error (msg : string).

Inductive result (A : Type) : Type :=
  | Ok (a : A)
  | Throw (e : exn).
Arguments Ok {A} a.
Arguments Throw {A} e.

(** ToBoolean: [if (v)], [v && ...], [v || ...], [!v]. *)
Definition truthy_num (n : number) : bool :=
  match n with
  | Int z => negb (z =? 0)
  | Dec m _ => negb (m =? 0)
  | Inf _ => true
  | NaN => false
  end.

Definition truthy (v : value) : bool :=
  match v with
  | VUndefined | VNull => false
  | VBool b => b
  | VNum n => truthy_num n
  | VStr s => negb (String.eqb s "")
  | VArr _ | VObj _ => true
  end.

Definition isNaN (n : number) : bool :=
  match n with
  | NaN => true
  | _ => false
  end.

(** [m / 10^e] in its shortest form. *)
Fixpoint decimal (m : Z) (e : nat) : number :=
  match e with
  | O => Int m
  | Datatypes.S e' =>
      if m mod 10 =? 0 then decimal (m / 10) e' else Dec m e
  end.

Fixpoint zeros (n : nat) : string :=
  match n with
  | O => ""
  | Datatypes.S n' => String "0" (zeros n')
  end.

(** Number-to-string on [m / 10^e] when it is not whole and [m] is no
    multiple of 10.  With [k] the number of digits of [m] and [n = k - e] the
    position of the decimal point: the digits with the point after the first
    [n] of them when [0 < n <= 21], ["0."] followed by [-n] zeros and the
    digits when [-6 < n <= 0], and the exponent notation otherwise. *)
Definition fraction_to_string (m : Z) (e : nat) : string :=
  let digits := pretty (Z.abs m) in
  let k := String.length digits in
  let n := Z.of_nat k - Z.of_nat e in
  let body :=
    if (0 <? n) && (n <=? 21)
    then String.substring 0 (Z.to_nat n) digits +:+ "."
         +:+ String.substring (Z.to_nat n) (k - Z.to_nat n) digits
    else if (-6 <? n) && (n <=? 0)
    then "0." +:+ zeros (Z.to_nat (- n)) +:+ digits
    else String.substring 0 1 digits
         +:+ (if (k =? 1)%nat then "" else "." +:+ String.substring 1 (k - 1) digits)
         +:+ "e" +:+ (if n - 1 <? 0 then "-" else "+")
         +:+ pretty (Z.abs (n - 1)) in
  if m <? 0 then "-" +:+ body else body.

Fixpoint decimal_to_string (m : Z) (e : nat) : string :=
  match e with
  | O => pretty m
  | Datatypes.S e' =>
      if m mod 10 =? 0 then decimal_to_string (m / 10) e'
      else fraction_to_string m e
  end.

(** Number-to-string: the decimal numeral of a whole number, the numeral of
    a fraction, [Infinity], [-Infinity], [NaN]. *)
Definition number_to_string (n : number) : string :=
  match n with
  | Int z => pretty z
  | Dec m e => decimal_to_string m e
  | Inf false => "Infinity"
  | Inf true => "-Infinity"
  | NaN => "NaN"
  end.

(** ToString.  An array is its elements joined by commas, [null] and
    [undefined] elements giving the empty string; a plain object is
    ["[object Object]"]. *)
Fixpoint ToString (v : value) : string :=
  match v with
  | VUndefined => "undefined"
  | VNull => "null"
  | VBool true => "true"
  | VBool false => "false"
  | VNum n => number_to_string n
  | VStr s => s
  | VArr elems =>
      let elem x :=
        match x with
        | VUndefined | VNull => ""
        | _ => ToString x
        end in
      (fix join (l : list value) : string :=
         match l with
         | [] => ""
         | [x] => elem x
         | x :: r => elem x +:+ "," +:+ join r
         end) elems
  | VObj _ => "[object Object]"
  end.

(** ToNumber on the values that are not strings or objects (the only ones
    the numeric branch of [+] meets here). *)
Definition ToNumber_prim (v : value) : number :=
  match v with
  | VNull => Int 0
  | VBool true => Int 1
  | VBool false => Int 0
  | VNum n => n
  | _ => NaN
  end.

Definition num_neg (a : number) : number :=
  match a with
  | Int x => Int (- x)
  | Dec m e => Dec (- m) e
  | Inf negative => Inf (negb negative)
  | NaN => NaN
  end.

(** [a + b]: [Infinity + -Infinity] is [NaN]. *)
Definition num_add (a b : number) : number :=
  match a, b with
  | Int x, Int y => Int (x + y)
  | Int x, Dec m e => decimal (x * 10 ^ Z.of_nat e + m) e
  | Dec m e, Int y => decimal (m + y * 10 ^ Z.of_nat e) e
  | Dec m e, Dec m' e' =>
      decimal (m * 10 ^ Z.of_nat (e' - e) + m' * 10 ^ Z.of_nat (e - e'))
              (e `max` e')
  | NaN, _ | _, NaN => NaN
  | Inf negative, Inf negative' =>
      if Bool.eqb negative negative' then Inf negative else NaN
  | Inf negative, _ | _, Inf negative => Inf negative
  end.

Definition num_sub (a b : number) : number :=
  match a, b with
  | Int x, Int y => Int (x - y)
  | _, _ => num_add a (num_neg b)
  end.

(** [a <= b]; a comparison with [NaN] is false. *)
Definition num_le (a b : number) : bool :=
  match a, b with
  | Int x, Int y => x <=? y
  | NaN, _ | _, NaN => false
  | Inf true, _ | _, Inf false => true
  | Inf false, _ | _, Inf true => false
  | Int x, Dec m e => x * 10 ^ Z.of_nat e <=? m
  | Dec m e, Int y => m <=? y * 10 ^ Z.of_nat e
  | Dec m e, Dec m' e' =>
      m * 10 ^ Z.of_nat (e' - e) <=? m' * 10 ^ Z.of_nat (e - e')
  end.

(** [a < b]. *)
Definition num_lt (a b : number) : bool :=
  num_le a b && negb (num_le b a).

(** [Number.isSafeInteger]: the whole numbers of magnitude below 2^53.
    JavaScript adds two of them exactly when the sum is one of them, and
    writes each of them in plain decimal. *)
Definition isSafeInteger (z : Z) : bool := Z.abs z <=? 2 ^ 53 - 1.

Definition exact_sum (a b : Z) : bool :=
  isSafeInteger a && isSafeInteger b && isSafeInteger (a + b).

(** The binary [+]: string concatenation as soon as one operand is a string
    (or an object, whose primitive is its string), numeric addition
    otherwise. *)
Definition js_add (a b : value) : value :=
  match a, b with
  | (VStr _ | VArr _ | VObj _), _
  | _, (VStr _ | VArr _ | VObj _) => VStr (ToString a +:+ ToString b)
  | _, _ => VNum (num_add (ToNumber_prim a) (ToNumber_prim b))
  end.

(** *** parseInt *)

Definition is_white_space (c : ascii) : bool :=
  let n := nat_of_ascii c in
  ((9 <=? n) && (n <=? 13) || (n =? 32))%nat.

Fixpoint trim_start (s : string) : string :=
  match s with
  | String c r => if is_white_space c then trim_start r else s
  | EmptyString => s
  end.

(** The value of [c] as a digit in radix 10 or 16. *)
Definition digit_value (radix : Z) (c : ascii) : option Z :=
  let n := Z.of_nat (nat_of_ascii c) in
  if (48 <=? n) && (n <=? 57) then Some (n - 48)
  else if (radix =? 16) && (97 <=? n) && (n <=? 102) then Some (n - 87)
  else if (radix =? 16) && (65 <=? n) && (n <=? 70) then Some (n - 55)
  else None.

(** The longest prefix of [s] made of digits, most significant first. *)
Fixpoint take_digits (radix : Z) (s : string) : list Z :=
  match s with
  | String c r =>
      match digit_value radix c with
      | Some d => d :: take_digits radix r
      | None => []
      end
  | EmptyString => []
  end.

Definition radix_value (radix : Z) (ds : list Z) : Z :=
  fold_left (fun acc d => acc * radix + d) ds 0.

(** [parseInt(string)] with no radix argument: leading white space is
    skipped, then an optional sign, then ["0x"] or ["0X"] selects radix 16;
    the result is [NaN] when no digit follows. *)
Definition parseInt_string (s : string) : number :=
  let s1 := trim_start s in
  let '(sign, s2) :=
    match s1 with
    | String "-" r => (-1, r)
    | String "+" r => (1, r)
    | _ => (1, s1)
    end in
  let '(radix, s3) :=
    match s2 with
    | String "0" (String "x" r) | String "0" (String "X" r) => (16, r)
    | _ => (10, s2)
    end in
  match take_digits radix s3 with
  | [] => NaN
  | ds => Int (sign * radix_value radix ds)
  end.

Definition parseInt (v : value) : number := parseInt_string (ToString v).

End JS.
Import JS.

(** ** The backing store

    The object handed to the constructor.  [getItem], [setItem],
    [removeItem] and [clear] are required (the constructor throws without
    them); the rest are the capabilities [_iterKeys] probes for, in its
    order: a [keys()] method, [Object.keys] of the host applied to the store,
    [length] with [key(i)], and plain [for ... in] enumeration. *)

Class Storage (S : Type) : Type := {
  storage_getItem : string → S → value;
  storage_setItem : string → value → S → value * S;
  storage_removeItem : string → S → value * S;
  storage_clear : S → S;
  storage_keys : option (S → list string);
  Object_keys : option (S → list string);
  storage_length_key : option ((S → nat) * (nat → S → string));
  storage_for_in : S → list string
}.

(** The JSON object of the host. [JSON_stringify] answers a string, or
    [undefined] for what has no JSON text; [JSON_parse] throws on malformed
    text. *)
Class JSON : Type := {
  JSON_stringify : value → value;
  JSON_parse : string → result value
}.

(** The keys [_iterKeys] goes through when the callback leaves the store
    alone: the answer of the first capability the store has. *)
Definition enumerate {S : Type} `{Storage S} (s : S) : list string :=
  match storage_keys with
  | Some keys_fn => keys_fn s
  | None =>
  match Object_keys with
  | Some Object_keys_fn => Object_keys_fn s
  | None =>
  match storage_length_key with
  | Some (length_fn, key_fn) => map (λ i, key_fn i s) (seq 0 (length_fn s))
  | None => storage_for_in s
  end end end.

(** What the wrapper relies on: an entry reads back as it was written (a
    string unchanged, a number up to its conversion to a string, which is
    what [localStorage] does to it), writes and removals touch one key, a
    removed key reads [null], and the enumeration lists every key that
    reads non-[null], each once, and loses exactly the removed key. *)
Class StorageLaws (S : Type) `{Storage S} : Prop := {
  getItem_setItem_str : ∀ key txt s,
    storage_getItem key (storage_setItem key (VStr txt) s).2 = VStr txt;
  getItem_setItem_num : ∀ key n s,
    ToString (storage_getItem key (storage_setItem key (VNum n) s).2)
    = ToString (VNum n);
  getItem_setItem_ne : ∀ key key' val s,
    key ≠ key' →
    storage_getItem key' (storage_setItem key val s).2 = storage_getItem key' s;
  getItem_removeItem : ∀ key s,
    storage_getItem key (storage_removeItem key s).2 = VNull;
  getItem_removeItem_ne : ∀ key key' s,
    key ≠ key' →
    storage_getItem key' (storage_removeItem key s).2 = storage_getItem key' s;
  enumerate_NoDup : ∀ s, NoDup (enumerate s);
  enumerate_getItem : ∀ key s,
    storage_getItem key s ≠ VNull → key ∈ enumerate s;
  enumerate_removeItem : ∀ key key' s,
    key' ∈ enumerate (storage_removeItem key s).2
    ↔ key' ∈ enumerate s ∧ key' ≠ key
}.

(** ** ExpiredStorage *)

Declare Scope method_scope.

Module ExpiredStorage.
Section ExpiredStorage.

Context {S : Type} `{Storage S} `{JSON}.

(** A method runs against the value of [getTimestamp()] and the current
    state of [this._storage]; it yields its return value and the new
    state. *)
Definition M (A : Type) : Type := Z → S → A * S.

Definition pure {A : Type} (a : A) : M A := λ _ s, (a, s).
Definition bind {A B : Type} (m : M A) (f : A → M B) : M B :=
  λ now s, let '(a, s') := m now s in f a now s'.

#[local] Notation "x ← m ; k" := (bind m (λ x, k))
  (at level 20, m at level 100, k at level 200, only parsing) : method_scope.
#[local] Notation "m ;; k" := (bind m (λ _, k))
  (at level 100, k at level 200, only parsing, right associativity)
  : method_scope.
#[local] Open Scope method_scope.

(** Calls on [this._storage]. *)
Definition _storage_getItem (key : string) : M value :=
  λ _ s, (storage_getItem key s, s).
Definition _storage_setItem (key : string) (val : value) : M value :=
  λ _ s, storage_setItem key val s.
Definition _storage_removeItem (key : string) : M value :=
  λ _ s, storage_removeItem key s.
Definition _storage_clear : M unit :=
  λ _ s, (tt, storage_clear s).
(** Reading a capability of the store in its current state. *)
Definition _storage_read {A : Type} (f : S → A) : M A :=
  λ _ s, (f s, s).

Definition _expiration_key_prefix : string := "__expired_storage_ts__".

(** The seam for the clock; the tests replace it by a variable they set. *)
Definition getTimestamp : M Z := λ now s, (now, s).

Definition updateExpiration (key : string) (expiration : value) : M value :=
  now ← getTimestamp;
  _storage_setItem (_expiration_key_prefix +:+ key)
                   (js_add (VNum (Int now)) expiration).

Definition setItem (key : string) (val expiration : value) : M value :=
  ret ← _storage_setItem key val;
  (if truthy expiration
   then updateExpiration key expiration ;; pure tt
   else pure tt) ;;
  pure ret.

Definition getTimeLeft (key : string) : M value :=
  raw ← _storage_getItem (_expiration_key_prefix +:+ key);
  let expireTime := parseInt raw in
  if truthy_num expireTime && negb (isNaN expireTime)
  then now ← getTimestamp; pure (VNum (num_sub expireTime (Int now)))
  else pure VNull.

(** [v !== null] and [v <= 0]. *)
Definition is_not_null (v : value) : bool :=
  match v with
  | VNull => false
  | _ => true
  end.
Definition le_zero (v : value) : bool :=
  num_le (ToNumber_prim v) (Int 0).

Definition isExpired (key : string) : M bool :=
  timeLeft ← getTimeLeft key;
  pure (is_not_null timeLeft && le_zero timeLeft).

Definition removeItem (key : string) : M value :=
  ret ← _storage_removeItem key;
  _storage_removeItem (_expiration_key_prefix +:+ key) ;;
  pure ret.

Definition getItem (key : string) : M value :=
  expired ← isExpired key;
  if expired
  then removeItem key ;; pure VNull
  else _storage_getItem key.

Record peeked : Type := {
  value_ : value;
  timeLeft_ : value;
  isExpired_ : bool
}.

Definition peek (key : string) : M peeked :=
  v ← _storage_getItem key;
  timeLeft ← getTimeLeft key;
  pure {| value_ := v;
          timeLeft_ := timeLeft;
          isExpired_ := is_not_null timeLeft && le_zero timeLeft |}.

Definition setJson (key : string) (val expiration : value)
  : M (result value) :=
  match val return M (result value) with
  | VUndefined => pure (Throw (Error "Cannot set undefined value as JSON!"))
  | _ => ret ← setItem key (JSON_stringify val) expiration; pure (Ok ret)
  end.

Definition getJson (key : string) : M (result value) :=
  val ← getItem key;
  match val return M (result value) with
  | VNull => pure (Ok VNull)
  | _ => pure (JSON_parse (ToString val))
  end.

(** [callback(keys[i])] for each element in turn.  The callbacks close over
    a local array they push to; it is threaded as the accumulator. *)
Fixpoint forEach {A : Type} (keys : list string)
    (callback : string → A → M A) (acc : A) : M A :=
  match keys with
  | [] => pure acc
  | k :: rest => acc' ← callback k acc; forEach rest callback acc'
  end.

(** [for (var k in this._storage) callback(k)]: the properties are those the
    store had when the loop started, and one deleted before the loop reaches
    it is not visited. *)
Fixpoint forIn {A : Type} (keys : list string)
    (callback : string → A → M A) (acc : A) : M A :=
  match keys with
  | [] => pure acc
  | k :: rest =>
      live ← _storage_read storage_for_in;
      if bool_decide (k ∈ live)
      then acc' ← callback k acc; forIn rest callback acc'
      else forIn rest callback acc
  end.

Definition _iterKeys {A : Type} (callback : string → A → M A) (acc : A)
  : M A :=
  match storage_keys with
  | Some keys_fn =>
      keys ← _storage_read keys_fn;
      forEach keys callback acc
  | None =>
  match Object_keys with
  | Some Object_keys_fn =>
      keys ← _storage_read Object_keys_fn;
      forEach keys callback acc
  | None =>
  match storage_length_key with
  | Some (length_fn, key_fn) =>
      len ← _storage_read length_fn;
      keys ← _storage_read (λ s, map (λ i, key_fn i s) (seq 0 len));
      forEach keys callback acc
  | None =>
      keys ← _storage_read storage_for_in;
      forIn keys callback acc
  end end end.

(** [s.indexOf(sub)]: the position of the first occurrence, or -1. *)
Definition indexOf (s sub : string) : Z :=
  match String.index 0 sub s with
  | Some n => Z.of_nat n
  | None => -1
  end.

(** [s.substr(start)]: the rest of [s] from position [start]. *)
Definition substr (s : string) (start : nat) : string :=
  String.substring start (String.length s - start) s.

(** The function [keys] hands to [_iterKeys]. *)
Definition keys_callback (includeExpired : value)
    (storageKey : string) (ret : list string) : M (list string) :=
  if negb (indexOf storageKey _expiration_key_prefix =? 0)
  then
    if truthy includeExpired
    then pure (ret ++ [storageKey])
    else
      expired ← isExpired storageKey;
      if negb expired then pure (ret ++ [storageKey]) else pure ret
  else pure ret.

Definition keys (includeExpired : value) : M (list string) :=
  _iterKeys (keys_callback includeExpired) [].

Definition clear : M unit := _storage_clear.

(** The function [clearExpired] hands to [_iterKeys]. *)
Definition clearExpired_callback (storageKey : string) (ret : list string)
  : M (list string) :=
  if indexOf storageKey _expiration_key_prefix =? 0
  then
    let itemKey := substr storageKey (String.length _expiration_key_prefix) in
    expired ← isExpired itemKey;
    if expired
    then removeItem itemKey ;; pure (ret ++ [itemKey])
    else pure ret
  else pure ret.

Definition clearExpired : M (list string) :=
  timestamp ← getTimestamp;
  _iterKeys clearExpired_callback [].

(** *** Notions the properties are stated with *)

(** What the store holds as the expiry record of [key]. *)
Definition expiry_record (key : string) (s : S) : value :=
  storage_getItem (_expiration_key_prefix +:+ key) s.

(** The keys [keys(includeExpired)] lets through. *)
Definition listed (includeExpired : value) (now : Z) (s : S) (k : string)
  : bool :=
  negb (String.prefix _expiration_key_prefix k)
  && (truthy includeExpired || negb (isExpired k now s).1).

(** The key namespace invariant: no key of the store begins with the prefix
    doubled, that is, no logical key that has an expiry record looks like an
    expiry record itself. *)
Definition namespace_respected (s : S) : Prop :=
  ∀ storageKey, storageKey ∈ enumerate s →
    String.prefix (_expiration_key_prefix +:+ _expiration_key_prefix) storageKey
    = false.

(** A value the host's JSON object writes as a text that it reads back as
    the same value. *)
Definition JSON_serializable (v : value) : Prop :=
  v ≠ VUndefined
  ∧ ∃ txt, JSON_stringify v = VStr txt ∧ JSON_parse txt = Ok v.

(** The first sentence of the specification on [getTimeLeft], word for word:
    [null] exactly when the record is absent or does not parse as a number,
    the recorded instant minus the timestamp otherwise. *)
Definition getTimeLeft_null_exactly_when_unparseable
    (key : string) (now : Z) (s : S) : Prop :=
  ((getTimeLeft key now s).1 = VNull
   ↔ expiry_record key s = VNull ∨ parseInt (expiry_record key s) = NaN)
  ∧ (¬ (expiry_record key s = VNull ∨ parseInt (expiry_record key s) = NaN) →
     (getTimeLeft key now s).1
     = VNum (num_sub (parseInt (expiry_record key s)) (Int now))).


(** *** clearExpired, after the words of the specification

    Enumerate the expiry-record keys, derive the logical key from each, and
    remove value and expiry record of every logical key found expired;
    answer the removed logical keys in enumeration order. *)

Definition record_keys (s : S) : list string :=
  filter (λ k, String.prefix _expiration_key_prefix k = true) (enumerate s).

Definition logical_key (storageKey : string) : string :=
  substr storageKey (String.length _expiration_key_prefix).

Fixpoint sweep (itemKeys : list string) (now : Z) (s : S) : list string * S :=
  match itemKeys with
  | [] => ([], s)
  | k :: rest =>
      if (isExpired k now s).1
      then let '(removed, s') := sweep rest now (removeItem k now s).2 in
           (k :: removed, s')
      else sweep rest now s
  end.

Definition clearExpired_spec (now : Z) (s : S) : list string * S :=
  sweep (logical_key <$> record_keys s) now s.

End ExpiredStorage.
End ExpiredStorage.
Import ExpiredStorage.

(** ** The custom storage class of the tests

    [testStorage] keeps its entries in a plain object [_storage]; the own
    properties of that object are the state.  A plain object also answers
    for the members of [Object.prototype]: reading [toString] on it gives a
    function when it has no such property of its own, and an assignment to
    [__proto__] adds no property.  The map below is the object for the keys
    that name no such member ([plain_key]); on the others the two differ.
    [keys] lists the keys in the order of the map, the object in its own
    order (the keys that are whole numbers first, then the others as they
    were added): the same keys. *)

Module testStorage.

Definition Object_prototype : list string :=
  ["constructor"; "__defineGetter__"; "__defineSetter__"; "hasOwnProperty";
   "__lookupGetter__"; "__lookupSetter__"; "isPrototypeOf";
   "propertyIsEnumerable"; "toString"; "valueOf"; "__proto__";
   "toLocaleString"]%string.

Definition plain_key (key : string) : Prop := key ∉ Object_prototype.

Definition getItem (key : string) (s : gmap string value) : value :=
  match s !! key with
  | None | Some VUndefined => VNull
  | Some ret => ret
  end.

Definition setItem (key : string) (val : value) (s : gmap string value)
  : value * gmap string value :=
  (VUndefined, <[key := val]> s).

Definition removeItem (key : string) (s : gmap string value)
  : value * gmap string value :=
  (VUndefined, delete key s).

Definition clear (s : gmap string value) : gmap string value := ∅.

Definition keys (s : gmap string value) : list string :=
  (map_to_list s).*1.

(** An object all of whose own properties have plain keys. *)
Definition plain_keys (s : gmap string value) : Prop :=
  Forall plain_key (keys s).

(** The own properties of the [testStorage] object itself. *)
Definition own_properties : list string :=
  ["_storage"; "getItem"; "setItem"; "removeItem"; "clear"; "keys"]%string.

#[global] Instance custom_storage : Storage (gmap string value) := {
  storage_getItem := getItem;
  storage_setItem := setItem;
  storage_removeItem := removeItem;
  storage_clear := clear;
  storage_keys := Some keys;
  Object_keys := Some (λ _, own_properties);
  storage_length_key := None;
  storage_for_in := λ _, own_properties
}.

End testStorage.


(** ** The storage of the browser

    [localStorage] and [sessionStorage], the default backing store and the
    other two stores the tests run on, are objects of the Web Storage
    interface: keys and values are strings, [setItem] converts the value to a
    string, [getItem] answers [null] for a key that is not there.  They have
    no [keys()] method; [Object.keys] lists the stored keys.  Keys are taken
    not to name members of the interface. *)

Module localStorage.

Definition getItem (key : string) (s : gmap string string) : value :=
  match s !! key with
  | Some v => VStr v
  | None => VNull
  end.

Definition setItem (key : string) (val : value) (s : gmap string string)
  : value * gmap string string :=
  (VUndefined, <[key := ToString val]> s).

Definition removeItem (key : string) (s : gmap string string)
  : value * gmap string string :=
  (VUndefined, delete key s).

Definition clear (s : gmap string string) : gmap string string := ∅.

Definition keys (s : gmap string string) : list string :=
  (map_to_list s).*1.

Definition length (s : gmap string string) : nat :=
  Datatypes.length (keys s).

Definition key (i : nat) (s : gmap string string) : string :=
  nth i (keys s) EmptyString.

(** The enumerable members of the interface, which [for ... in] meets after
    the stored keys. *)
Definition members : list string :=
  ["length"; "key"; "getItem"; "setItem"; "removeItem"; "clear"]%string.

#[global] Instance web_storage : Storage (gmap string string) := {
  storage_getItem := getItem;
  storage_setItem := setItem;
  storage_removeItem := removeItem;
  storage_clear := clear;
  storage_keys := None;
  Object_keys := Some keys;
  storage_length_key := Some (length, key);
  storage_for_in := λ s, keys s ++ members
}.

End localStorage.

(** ** A JSON object

    One instance of the [JSON] interface, for the texts without white space:
    [null], [true], [false], numbers written without an exponent, strings
    (with the escapes of the double quote and of the backslash), arrays and
    objects.  As [JSON.stringify] does, [NaN] and the infinities become
    [null], so does [undefined] inside an array, and a property whose value
    is [undefined] is left out. *)

Module hostJSON.

Definition dquote : ascii := "034".
Definition is_escaped (c : ascii) : bool := Ascii.eqb c dquote || Ascii.eqb c "\".

Fixpoint quote_chars (s : string) : string :=
  match s with
  | EmptyString => String dquote ""
  | String c r =>
      if is_escaped c
      then String "\" (String c (quote_chars r))
      else String c (quote_chars r)
  end.

Definition quote (s : string) : string := String dquote (quote_chars s).

Definition join (sep : string) (l : list string) : string :=
  match l with
  | [] => ""
  | x :: r => fold_left (λ acc y, acc +:+ sep +:+ y) r x
  end.

Fixpoint text (v : value) : option string :=
  match v with
  | VUndefined => None
  | VNull => Some "null"
  | VBool true => Some "true"
  | VBool false => Some "false"
  | VNum (Inf _ | NaN) => Some "null"
  | VNum n => Some (number_to_string n)
  | VStr s => Some (quote s)
  | VArr elems =>
      Some ("[" +:+ join "," (map (λ x, default "null" (text x)) elems) +:+ "]")
  | VObj props =>
      Some ("{" +:+ join ","
              (omap (λ '(k, x), (λ t, quote k +:+ ":" +:+ t) <$> text x) props)
            +:+ "}")
  end.

Definition stringify (v : value) : value :=
  match text v with
  | Some t => VStr t
  | None => VUndefined
  end.

(** The characters of a string literal up to its closing quote. *)
Fixpoint read_chars (s : string) : option (string * string) :=
  match s with
  | EmptyString => None
  | String "\" (String c r) =>
      if is_escaped c
      then '(t, rest) ← read_chars r; Some (String c t, rest)
      else None
  | String c r =>
      if Ascii.eqb c dquote
      then Some ("", r)
      else '(t, rest) ← read_chars r; Some (String c t, rest)
  end.

Fixpoint drop_digits (s : string) : string :=
  match s with
  | String c r =>
      match digit_value 10 c with
      | Some _ => drop_digits r
      | None => s
      end
  | EmptyString => s
  end.

Definition read_digits (s : string) : option (Z * string) :=
  match take_digits 10 s with
  | [] => None
  | ds => Some (radix_value 10 ds, drop_digits s)
  end.

(** A number without its sign: digits, then possibly a point and digits. *)
Definition read_number (s : string) : option (number * string) :=
  '(n, rest) ← read_digits s;
  match rest with
  | String "." r =>
      match take_digits 10 r with
      | [] => None
      | ds => Some (decimal (n * 10 ^ Z.of_nat (length ds) + radix_value 10 ds)
                            (length ds),
                    drop_digits r)
      end
  | _ => Some (Int n, rest)
  end.

Definition strip (p s : string) : option string :=
  if String.prefix p s
  then Some (String.substring (String.length p)
                              (String.length s - String.length p) s)
  else None.

Fixpoint read_value (fuel : nat) (s : string) : option (value * string) :=
  match fuel with
  | O => None
  | Datatypes.S fuel =>
      match s with
      | String "[" (String "]" r) => Some (VArr [], r)
      | String "[" r => read_elems fuel r []
      | String "{" (String "}" r) => Some (VObj [], r)
      | String "{" r => read_members fuel r []
      | String "034" r => '(t, rest) ← read_chars r; Some (VStr t, rest)
      | String "-" r => '(n, rest) ← read_number r; Some (VNum (num_neg n), rest)
      | _ =>
          match strip "null" s, strip "true" s, strip "false" s with
          | Some r, _, _ => Some (VNull, r)
          | _, Some r, _ => Some (VBool true, r)
          | _, _, Some r => Some (VBool false, r)
          | _, _, _ => '(n, rest) ← read_number s; Some (VNum n, rest)
          end
      end
  end
with read_elems (fuel : nat) (s : string) (acc : list value)
  : option (value * string) :=
  match fuel with
  | O => None
  | Datatypes.S fuel =>
      '(v, rest) ← read_value fuel s;
      match rest with
      | String "," r => read_elems fuel r (acc ++ [v])
      | String "]" r => Some (VArr (acc ++ [v]), r)
      | _ => None
      end
  end
with read_members (fuel : nat) (s : string) (acc : list (string * value))
  : option (value * string) :=
  match fuel with
  | O => None
  | Datatypes.S fuel =>
      match s with
      | String "034" r =>
          '(k, rest) ← read_chars r;
          match rest with
          | String ":" r' =>
              '(v, rest') ← read_value fuel r';
              match rest' with
              | String "," r'' => read_members fuel r'' (acc ++ [(k, v)])
              | String "}" r'' => Some (VObj (acc ++ [(k, v)]), r'')
              | _ => None
              end
          | _ => None
          end
      | _ => None
      end
  end.

Definition parse (s : string) : result value :=
  match read_value (Datatypes.S (String.length s)) s with
  | Some (v, EmptyString) => Ok v
  | _ => Throw (Error "SyntaxError")
  end.

#[global] Instance json : JSON := {
  JSON_stringify := stringify;
  JSON_parse := parse
}.

End hostJSON.

(** ** The stores of the tests *)

(** The test "Clear expired": three items with expiration times 10, 15 and 25
    and one without, all set at time 0. *)
Definition four_items : gmap string value :=
  let s1 := (setItem "a" (VStr "foo") (VNum (Int 10)) 0 ∅).2 in
  let s2 := (setItem "b" (VStr "bar") (VNum (Int 15)) 0 s1).2 in
  let s3 := (setItem "c" (VStr "woo") (VNum (Int 25)) 0 s2).2 in
  (setItem "d" (VStr "woo2") VUndefined 0 s3).2.

(** A store in which the expiry record of ["K"] holds the instant 0. *)
Definition zero_record : gmap string value :=
  (updateExpiration "K" (VNum (Int 0)) 0 ∅).2.



(** A store that breaks the key namespace invariant: ["x"] expires at 5, and so
    does the logical key spelled like the expiry record of ["x"]. *)
Definition colliding_keys : gmap string value :=
  let s1 := (updateExpiration (_expiration_key_prefix +:+ "x") (VNum (Int 5)) 0 ∅).2 in
  (setItem "x" (VStr "v") (VNum (Int 5)) 0 s1).2.

Definition test_object : value :=
  VObj [("a", VNum (Int 5)); ("c", VNull); ("e", VStr "aa");
        ("l", VArr [VBool true; VNum (Int (-3))])]%string.

(** The assertions of the test "Basic API on items with expiration", on a
    store that starts as [s0]; [foo] is what the store reads for the value
    ["foo"]. *)
Definition expiration_assertions {S : Type} `{Storage S} (s0 : S)
    (foo : value) : Prop :=
  let s1 := (setItem "test" (VStr "foo") (VNum (Int 10)) 0 s0).2 in
  let s2 := (getItem "test" 15 s1).2 in
  (getItem "test" 0 s1).1 = foo
  ∧ (getTimeLeft "test" 0 s1).1 = VNum (Int 10)
  ∧ (isExpired "test" 0 s1).1 = false
  ∧ (peek "test" 0 s1).1
    = {| value_ := foo; timeLeft_ := VNum (Int 10); isExpired_ := false |}
  ∧ (keys VUndefined 0 s1).1 = ["test"]
  ∧ (getTimeLeft "test" 15 s1).1 = VNum (Int (-5))
  ∧ (isExpired "test" 15 s1).1 = true
  ∧ (peek "test" 15 s1).1
    = {| value_ := foo; timeLeft_ := VNum (Int (-5)); isExpired_ := true |}
  ∧ (peek "test" 15 (peek "test" 15 s1).2).1
    = {| value_ := foo; timeLeft_ := VNum (Int (-5)); isExpired_ := true |}
  ∧ (getItem "test" 15 s1).1 = VNull
  ∧ storage_getItem "test" s2 = VNull
  ∧ (peek "test" 15 s2).1
    = {| value_ := VNull; timeLeft_ := VNull; isExpired_ := false |}
  ∧ (keys VUndefined 15 s2).1 = [].

(** ** Decimal numerals, for the proofs about [parseInt] *)

Definition digits_string (ds : list N) (s : string) : string :=
  foldr (λ d acc, String (pretty_N_char d) acc) s ds.

Definition is_digit (d : N) : Prop := (d < 10)%N.

(** ** The constructor and the clock *)

(** An object handed to [new ExpiredStorage(storage)], or found as the global
    [localStorage]: each member the constructor asks for is a function or is
    missing.  (A member that is there but is no function passes the
    constructor like a function; such objects are left out.) *)
Record storage_object (S : Type) : Type := {
  object_setItem : option (string → value → S → value * S);
  object_getItem : option (string → S → value);
  object_removeItem : option (string → S → value * S);
  object_clear : option (S → S)
}.
Arguments object_setItem {S} _.
Arguments object_getItem {S} _.
Arguments object_removeItem {S} _.
Arguments object_clear {S} _.

(** [storage.setItem && storage.getItem && storage.removeItem &&
    storage.clear]. *)
Definition has_required_API {S : Type} (storage : storage_object S) : bool :=
  bool_decide (is_Some (object_setItem storage))
  && bool_decide (is_Some (object_getItem storage))
  && bool_decide (is_Some (object_removeItem storage))
  && bool_decide (is_Some (object_clear storage)).

Definition no_storage_error : exn :=
  Error "ExpiredStorage: No storage base class provided and 'localStorage' is undefined! Please provide a valid base storage class.".

Definition missing_API_error : exn :=
  Error "ExpiredStorage: Storage class  don't support one or more of the required API functions: getItem, setItem, removeItem or clear.".

(** [function ExpiredStorage(storage)].  The argument is [None] when it is
    omitted or falsy; [localStorage] is [None] when the host has no such
    global (or it is [null]).  The answer is the object kept as
    [this._storage]. *)
Definition new_ExpiredStorage {S : Type}
    (storage localStorage : option (storage_object S))
  : result (storage_object S) :=
  let storage :=
    match storage with
    | Some given => Some given
    | None => localStorage
    end in
  match storage with
  | None => Throw no_storage_error
  | Some storage =>
      if negb (has_required_API storage)
      then Throw missing_API_error
      else Ok storage
  end.

(** The objects of the test "Creation": [{}], the object whose four members
    are functions that do nothing, and the custom storage class. *)
Definition empty_object {S : Type} : storage_object S :=
  {| object_setItem := None; object_getItem := None;
     object_removeItem := None; object_clear := None |}.

Definition minimal_object : storage_object unit :=
  {| object_setItem := Some (λ _ _ s, (VUndefined, s));
     object_getItem := Some (λ _ _, VUndefined);
     object_removeItem := Some (λ _ s, (VUndefined, s));
     object_clear := Some (λ s, s) |}.

Definition testStorage_object : storage_object (gmap string value) :=
  {| object_setItem := Some testStorage.setItem;
     object_getItem := Some testStorage.getItem;
     object_removeItem := Some testStorage.removeItem;
     object_clear := Some testStorage.clear |}.

(** [getTimestamp] as the prototype has it, before a test replaces it:
    [Math.floor(((new Date).getTime()) / 1000)], for a clock that reads
    [millis] milliseconds. *)
Definition getTimestamp_of_Date (millis : Z) : Z := millis `div` 1000.

(** More of the contract of a backing store, for [setItem] and [clear]: a
    write adds its key to the enumeration and nothing else, and [clear]
    leaves no entry. *)
Class StorageWriteLaws (S : Type) `{Storage S} : Prop := {
  enumerate_setItem : ∀ key key' val s,
    key' ∈ enumerate (storage_setItem key val s).2
    ↔ key' = key ∨ key' ∈ enumerate s;
  getItem_clear : ∀ key s, storage_getItem key (storage_clear s) = VNull;
  enumerate_clear : ∀ s, enumerate (storage_clear s) = []
}.

(** * Proofs *)

(** ** Strings *)


Lemma app_empty (s : string) : "" +:+ s = s.
Proof. reflexivity. Qed.

Lemma app_String (c : ascii) (a b : string) :
  String c a +:+ b = String c (a +:+ b).
Proof. reflexivity. Qed.

Lemma prefix_app (p k : string) : String.prefix p (p +:+ k) = true.
Proof.
  induction p as [|c p IH].
  - rewrite app_empty. by destruct k.
  - rewrite app_String. simpl. destruct (ascii_dec c c); [done | congruence].
Qed.

Lemma substring_all (s : string) : String.substring 0 (String.length s) s = s.
Proof. induction s as [|d s IHs]; simpl; congruence. Qed.

Lemma prefix_split (p s : string) :
  String.prefix p s = true → s = p +:+ substr s (String.length p).
Proof.
  unfold substr. revert s. induction p as [|c p IH]; intros s Hp.
  - rewrite app_empty. simpl. by rewrite Nat.sub_0_r, substring_all.
  - destruct s as [|d s]; [done|]. simpl in Hp.
    destruct (ascii_dec c d) as [->|]; [|done].
    rewrite app_String. simpl. f_equal. by apply IH.
Qed.

Lemma substr_app (p k : string) : substr (p +:+ k) (String.length p) = k.
Proof.
  pose proof (prefix_split p (p +:+ k) (prefix_app p k)) as Heq.
  by apply String.app_inj in Heq.
Qed.

Lemma indexOf_prefix (s p : string) :
  (indexOf s p =? 0) = String.prefix p s.
Proof.
  unfold indexOf. destruct s as [|c s]; simpl.
  - by destruct p.
  - destruct p as [|d p]; [done|]. simpl.
    destruct (ascii_dec d c) as [->|].
    + destruct (String.prefix p s); [done|].
      by destruct (String.index 0 (String c p) s).
    + by destruct (String.index 0 (String d p) s).
Qed.

Lemma string_length_app (a b : string) :
  String.length (a +:+ b) = (String.length a + String.length b)%nat.
Proof.
  induction a as [|c a IH]; [done|]. rewrite app_String. simpl. by rewrite IH.
Qed.

Lemma prefixed_ne (k : string) : _expiration_key_prefix +:+ k ≠ k.
Proof.
  intros Heq. apply (f_equal String.length) in Heq.
  rewrite string_length_app in Heq. simpl in Heq. lia.
Qed.

(** ** parseInt after number-to-string *)

Example parseInt_leading_integer : parseInt (VStr "  -12abc") = Int (-12).
Proof. vm_compute. reflexivity. Qed.

Example parseInt_hexadecimal : parseInt (VStr "0x1F") = Int 31.
Proof. vm_compute. reflexivity. Qed.

Example parseInt_no_digit :
  parseInt VNull = NaN ∧ parseInt VUndefined = NaN ∧ parseInt (VStr "") = NaN
  ∧ parseInt (VStr "abc") = NaN ∧ parseInt (VNum NaN) = NaN.
Proof. vm_compute. repeat split. Qed.

Example parseInt_not_whole :
  parseInt (VNum (Dec 15 1)) = Int 1 ∧ parseInt (VNum (Dec (-5) 1)) = Int 0
  ∧ parseInt (VNum (Dec 5 7)) = Int 5 ∧ parseInt (VNum (Inf true)) = NaN
  ∧ parseInt (VStr "1e+21") = Int 1.
Proof. repeat split; vm_compute; reflexivity. Qed.

Example parseInt_timestamp : parseInt (VNum (Int 1700000015)) = Int 1700000015.
Proof. vm_compute. reflexivity. Qed.


Lemma digits_string_app ds1 ds2 s :
  digits_string (ds1 ++ ds2) s = digits_string ds1 (digits_string ds2 s).
Proof. unfold digits_string. by rewrite foldr_app. Qed.


Lemma is_digit_cases d :
  is_digit d →
  (d = 0 ∨ d = 1 ∨ d = 2 ∨ d = 3 ∨ d = 4 ∨ d = 5 ∨ d = 6 ∨ d = 7 ∨ d = 8
   ∨ d = 9)%N.
Proof. unfold is_digit. lia. Qed.

Ltac digit_cases H :=
  apply is_digit_cases in H;
  repeat (destruct H as [H|H]); subst.

Lemma pretty_N_go_digits (x : N) (s : string) :
  ∃ ds, pretty_N_go x s = digits_string ds s
        ∧ Forall is_digit ds
        ∧ (∀ a, fold_left (λ acc d, acc * 10 + Z.of_N d) ds a
                = a * 10 ^ Z.of_nat (length ds) + Z.of_N x)
        ∧ ((0 < x)%N → ds ≠ []).
Proof.
  revert s. induction (N.lt_wf_0 x) as [x _ IH]. intros s.
  destruct (decide (x = 0%N)) as [->|Hx].
  - exists []. rewrite pretty_N_go_0. repeat split; [constructor | | lia].
    intros a. simpl. lia.
  - rewrite pretty_N_go_step by lia.
    destruct (IH (x `div` 10)%N) with (s := String (pretty_N_char (x `mod` 10)) s)
      as (ds & Hs & Hds & Hval & _).
    { apply N.div_lt; lia. }
    exists (ds ++ [(x `mod` 10)%N]). repeat split.
    + by rewrite Hs, digits_string_app.
    + apply Forall_app. split; [done|]. constructor; [|constructor].
      unfold is_digit. apply N.mod_lt. lia.
    + intros a. rewrite fold_left_app, Hval, length_app. simpl.
      rewrite Nat2Z.inj_add, Z.pow_add_r by lia.
      pose proof (N.div_mod x 10 ltac:(lia)) as Hdm.
      apply (f_equal Z.of_N) in Hdm. rewrite N2Z.inj_add, N2Z.inj_mul in Hdm.
      change (Z.of_N 10) with 10 in Hdm. change (10 ^ Z.of_nat 1) with 10. lia.
    + intros _. by destruct ds.
Qed.

Lemma digit_value_char d :
  is_digit d → digit_value 10 (pretty_N_char d) = Some (Z.of_N d).
Proof. intros Hd. digit_cases Hd; reflexivity. Qed.

Lemma take_digits_string ds :
  Forall is_digit ds → take_digits 10 (digits_string ds "") = Z.of_N <$> ds.
Proof.
  induction 1 as [|d ds Hd _ IH]; [done|]. simpl.
  rewrite digit_value_char by done. by rewrite IH.
Qed.

Lemma fold_left_of_N ds a :
  fold_left (λ acc d, acc * 10 + d) (Z.of_N <$> ds) a
  = fold_left (λ acc d, acc * 10 + Z.of_N d) ds a.
Proof. revert a. induction ds as [|d ds IH]; intros a; csimpl; [done|]. apply IH. Qed.

Lemma pretty_N_go_parse (x : N) :
  (0 < x)%N →
  ∃ d ds, pretty_N_go x "" = digits_string (d :: ds) ""
          ∧ Forall is_digit (d :: ds)
          ∧ radix_value 10 (Z.of_N <$> d :: ds) = Z.of_N x.
Proof.
  intros Hx. destruct (pretty_N_go_digits x "") as (ds & Hs & Hds & Hval & Hne).
  destruct ds as [|d ds]; [by destruct Hne|]. exists d, ds.
  repeat split; [done..|]. unfold radix_value.
  rewrite fold_left_of_N, Hval. lia.
Qed.

Lemma digit_char_not_space d :
  is_digit d → is_white_space (pretty_N_char d) = false.
Proof. intros Hd. digit_cases Hd; reflexivity. Qed.

Lemma parseInt_string_digits (d : N) (ds : list N) :
  Forall is_digit (d :: ds) →
  parseInt_string (digits_string (d :: ds) "")
  = Int (radix_value 10 (Z.of_N <$> d :: ds))
  ∧ parseInt_string ("-" +:+ digits_string (d :: ds) "")
  = Int (- radix_value 10 (Z.of_N <$> d :: ds)).
Proof.
  intros Hds. pose proof (take_digits_string _ Hds) as Htake.
  inversion Hds as [|? ? Hd Hds']; subst.
  assert (∀ sign, (let '(radix, s3) :=
             match digits_string (d :: ds) "" with
             | String "0" (String "x" r) | String "0" (String "X" r) => (16, r)
             | _ => (10, digits_string (d :: ds) "")
             end in
           match take_digits radix s3 with
           | [] => NaN
           | l => Int (sign * radix_value radix l)
           end) = Int (sign * radix_value 10 (Z.of_N <$> d :: ds))) as Hbody.
  { intros sign.
    assert (match digits_string (d :: ds) "" with
             | String "0" (String "x" r) | String "0" (String "X" r) => (16, r)
             | _ => (10, digits_string (d :: ds) "")
             end = (10, digits_string (d :: ds) "")) as ->.
    { destruct ds as [|d' ds].
      - digit_cases Hd; reflexivity.
      - inversion Hds' as [|? ? Hd' _]; subst.
        digit_cases Hd; try reflexivity. digit_cases Hd'; reflexivity. }
    by rewrite Htake. }
  split.
  - unfold parseInt_string.
    assert (trim_start (digits_string (d :: ds) "") = digits_string (d :: ds) "") as ->.
    { simpl. by rewrite digit_char_not_space. }
    assert (match digits_string (d :: ds) "" with
            | String "-" r => (-1, r)
            | String "+" r => (1, r)
            | _ => (1, digits_string (d :: ds) "")
            end = (1, digits_string (d :: ds) "")) as ->.
    { digit_cases Hd; reflexivity. }
    rewrite (Hbody 1). f_equal; lia.
  - unfold parseInt_string.
    change (trim_start ("-" +:+ digits_string (d :: ds) ""))
      with ("-" +:+ digits_string (d :: ds) "").
    change ("-" +:+ digits_string (d :: ds) "")
      with (String "-" (digits_string (d :: ds) "")).
    cbv iota beta. rewrite (Hbody (-1)). f_equal; lia.
Qed.

Lemma parseInt_Int (z : Z) : parseInt (VNum (Int z)) = Int z.
Proof.
  unfold parseInt. change (ToString (VNum (Int z))) with (pretty z).
  destruct z as [|p|p].
  - reflexivity.
  - change (pretty (Z.pos p)) with (pretty_N_go (N.pos p) "").
    destruct (pretty_N_go_parse (N.pos p) ltac:(lia)) as (d & ds & -> & Hds & Hval).
    destruct (parseInt_string_digits d ds Hds) as [-> _]. by rewrite Hval.
  - change (pretty (Z.neg p)) with ("-" +:+ pretty_N_go (N.pos p) "").
    destruct (pretty_N_go_parse (N.pos p) ltac:(lia)) as (d & ds & -> & Hds & Hval).
    destruct (parseInt_string_digits d ds Hds) as [_ ->]. by rewrite Hval.
Qed.

(** What [parseInt] answers is a whole number or [NaN]. *)
Lemma parseInt_string_whole (s : string) :
  (∃ e, parseInt_string s = Int e) ∨ parseInt_string s = NaN.
Proof.
  unfold parseInt_string.
  destruct (match trim_start s with
            | String "-" r => (-1, r)
            | String "+" r => (1, r)
            | _ => (1, trim_start s)
            end) as [sign s2].
  destruct (match s2 with
            | String "0" (String "x" r) | String "0" (String "X" r) => (16, r)
            | _ => (10, s2)
            end) as [radix s3].
  destruct (take_digits radix s3); [by right | left; by eexists].
Qed.

Lemma parseInt_whole (v : value) :
  (∃ e, parseInt v = Int e) ∨ parseInt v = NaN.
Proof. apply parseInt_string_whole. Qed.

(** ** The test storage is lawful *)

Lemma testStorage_keys_elem (key : string) (s : gmap string value) :
  key ∈ testStorage.keys s ↔ is_Some (s !! key).
Proof.
  unfold testStorage.keys. rewrite list_elem_of_fmap. split.
  - intros ([k v] & -> & Hin). apply elem_of_map_to_list in Hin. by exists v.
  - intros [v Hv]. exists (key, v). split; [done|]. by apply elem_of_map_to_list.
Qed.

#[global] Instance testStorage_laws : StorageLaws (gmap string value).
Proof.
  split; unfold enumerate; simpl; unfold testStorage.getItem.
  - intros key txt s. by rewrite lookup_insert_eq.
  - intros key n s. by rewrite lookup_insert_eq.
  - intros key key' val s Hne. by rewrite lookup_insert_ne.
  - intros key s. by rewrite lookup_delete_eq.
  - intros key key' s Hne. by rewrite lookup_delete_ne.
  - intros s. apply NoDup_fst_map_to_list.
  - intros key s Hget. apply testStorage_keys_elem.
    destruct (s !! key) as [v|]; [by exists v | congruence].
  - intros key key' s. rewrite !testStorage_keys_elem.
    destruct (decide (key = key')) as [->|Hne].
    + rewrite lookup_delete_eq. split; [by intros [? ?] | by intros [_ ?]].
    + rewrite lookup_delete_ne by done.
      split; [intros ?; split; congruence | by intros [? _]].
Qed.

Lemma localStorage_keys_elem (key : string) (s : gmap string string) :
  key ∈ localStorage.keys s ↔ is_Some (s !! key).
Proof.
  unfold localStorage.keys. rewrite list_elem_of_fmap. split.
  - intros ([k v] & -> & Hin). apply elem_of_map_to_list in Hin. by exists v.
  - intros [v Hv]. exists (key, v). split; [done|]. by apply elem_of_map_to_list.
Qed.

#[global] Instance localStorage_laws : StorageLaws (gmap string string).
Proof.
  split; unfold enumerate; simpl; unfold localStorage.getItem.
  - intros key txt s. by rewrite lookup_insert_eq.
  - intros key n s. by rewrite lookup_insert_eq.
  - intros key key' val s Hne. by rewrite lookup_insert_ne.
  - intros key s. by rewrite lookup_delete_eq.
  - intros key key' s Hne. by rewrite lookup_delete_ne.
  - intros s. apply NoDup_fst_map_to_list.
  - intros key s Hget. apply localStorage_keys_elem.
    destruct (s !! key) as [v|]; [by exists v | congruence].
  - intros key key' s. rewrite !localStorage_keys_elem.
    destruct (decide (key = key')) as [->|Hne].
    + rewrite lookup_delete_eq. split; [by intros [? ?] | by intros [_ ?]].
    + rewrite lookup_delete_ne by done.
      split; [intros ?; split; congruence | by intros [? _]].
Qed.

(** ** What the methods compute *)

Section wrapper.
Context {S : Type} `{Storage S}.


Lemma getTimeLeft_eq (key : string) (now : Z) (s : S) :
  getTimeLeft key now s
  = (match parseInt (expiry_record key s) with
     | Int e => if e =? 0 then VNull else VNum (Int (e - now))
     | _ => VNull
     end, s).
Proof.
  unfold getTimeLeft, bind, _storage_getItem, getTimestamp, pure, expiry_record.
  destruct (parseInt_whole (storage_getItem (_expiration_key_prefix +:+ key) s))
    as [[e ->]| ->]; simpl; [|done]. by destruct (e =? 0).
Qed.

Lemma isExpired_eq (key : string) (now : Z) (s : S) :
  isExpired key now s
  = (match parseInt (expiry_record key s) with
     | Int e => negb (e =? 0) && (e <=? now)
     | _ => false
     end, s).
Proof.
  unfold isExpired, bind, pure. rewrite getTimeLeft_eq.
  destruct (parseInt_whole (expiry_record key s)) as [[e ->]| ->]; [|done].
  destruct (e =? 0); simpl; [done|]. unfold le_zero. simpl.
  f_equal. destruct (Z.leb_spec (e - now) 0), (Z.leb_spec e now); done || lia.
Qed.

Lemma removeItem_eq (key : string) (now : Z) (s : S) :
  removeItem key now s
  = ((storage_removeItem key s).1,
     (storage_removeItem (_expiration_key_prefix +:+ key)
        (storage_removeItem key s).2).2).
Proof.
  unfold removeItem, bind, pure, _storage_removeItem.
  destruct (storage_removeItem key s) as [r s1]. simpl.
  by destruct (storage_removeItem _ s1).
Qed.

Lemma getItem_eq (key : string) (now : Z) (s : S) :
  getItem key now s
  = if (isExpired key now s).1
    then (VNull, (removeItem key now s).2)
    else (storage_getItem key s, s).
Proof.
  unfold getItem, bind, pure, _storage_getItem. rewrite isExpired_eq. simpl.
  destruct (match parseInt _ with Int _ => _ | _ => _ end); [|done].
  by destruct (removeItem key now s).
Qed.

Lemma updateExpiration_eq (key : string) (expiration : value) (now : Z) (s : S) :
  updateExpiration key expiration now s
  = storage_setItem (_expiration_key_prefix +:+ key)
      (js_add (VNum (Int now)) expiration) s.
Proof. reflexivity. Qed.

Lemma setItem_eq (key : string) (val expiration : value) (now : Z) (s : S) :
  setItem key val expiration now s
  = ((storage_setItem key val s).1,
     if truthy expiration
     then (updateExpiration key expiration now (storage_setItem key val s).2).2
     else (storage_setItem key val s).2).
Proof.
  unfold setItem, bind, pure, _storage_setItem.
  destruct (storage_setItem key val s) as [r s1]. simpl.
  destruct (truthy expiration); [|done].
  by destruct (updateExpiration key expiration now s1).
Qed.

End wrapper.

Section iteration.
Context {S : Type} `{Storage S}.

Lemma forEach_pure {A : Type} (ks : list string) (callback : string → A → M A)
    (g : string → A → A) (now : Z) (s : S) (acc : A) :
  (∀ k a, callback k a now s = (g k a, s)) →
  forEach ks callback acc now s = (fold_left (λ a k, g k a) ks acc, s).
Proof.
  intros Hcb. revert acc. induction ks as [|k ks IH]; intros acc; [done|].
  simpl. unfold bind. rewrite Hcb. apply IH.
Qed.

Lemma forIn_pure {A : Type} (ks : list string) (callback : string → A → M A)
    (g : string → A → A) (now : Z) (s : S) (acc : A) :
  (∀ k a, callback k a now s = (g k a, s)) →
  ks ⊆ storage_for_in s →
  forIn ks callback acc now s = (fold_left (λ a k, g k a) ks acc, s).
Proof.
  intros Hcb. revert acc. induction ks as [|k ks IH]; intros acc Hsub; [done|].
  simpl. unfold bind, _storage_read.
  rewrite bool_decide_eq_true_2 by (apply Hsub; left).
  rewrite Hcb. apply IH. intros x Hx. apply Hsub. by right.
Qed.

Lemma _iterKeys_pure {A : Type} (callback : string → A → M A)
    (g : string → A → A) (now : Z) (s : S) (acc : A) :
  (∀ k a, callback k a now s = (g k a, s)) →
  _iterKeys callback acc now s = (fold_left (λ a k, g k a) (enumerate s) acc, s).
Proof.
  intros Hcb. unfold _iterKeys, enumerate.
  destruct storage_keys as [keys_fn|].
  { unfold bind, _storage_read. by apply forEach_pure. }
  destruct Object_keys as [Object_keys_fn|].
  { unfold bind, _storage_read. by apply forEach_pure. }
  destruct storage_length_key as [[length_fn key_fn]|].
  { unfold bind, _storage_read. by apply forEach_pure. }
  unfold bind, _storage_read. by apply forIn_pure.
Qed.

Lemma fold_left_push (keep : string → bool) (ks acc : list string) :
  fold_left (λ a k, if keep k then a ++ [k] else a) ks acc
  = acc ++ filter (λ k, keep k = true) ks.
Proof.
  revert acc. induction ks as [|k ks IH]; intros acc; simpl.
  - by rewrite app_nil_r.
  - rewrite IH. rewrite filter_cons. destruct (keep k) eqn:Hk.
    + rewrite decide_True by done. by rewrite <- app_assoc.
    + rewrite decide_False by done. done.
Qed.


Lemma keys_eq (includeExpired : value) (now : Z) (s : S) :
  keys includeExpired now s
  = (filter (λ k, listed includeExpired now s k = true) (enumerate s), s).
Proof.
  unfold keys, keys_callback.
  rewrite (_iterKeys_pure _
    (λ k a, if listed includeExpired now s k then a ++ [k] else a)).
  - by rewrite fold_left_push.
  - intros k a. unfold listed. rewrite indexOf_prefix.
    destruct (String.prefix _ k); simpl; [done|].
    destruct (truthy includeExpired); simpl; [done|].
    unfold bind. rewrite isExpired_eq. simpl.
    by destruct (match parseInt _ with Int _ => _ | _ => _ end).
Qed.

End iteration.

Section sweep.
Context {S : Type} `{StorageLaws S}.


Lemma clearExpired_callback_eq (k : string) (ret : list string) (now : Z) (s : S) :
  clearExpired_callback k ret now s
  = if String.prefix _expiration_key_prefix k
       && (isExpired (logical_key k) now s).1
    then (ret ++ [logical_key k], (removeItem (logical_key k) now s).2)
    else (ret, s).
Proof.
  unfold clearExpired_callback. rewrite indexOf_prefix.
  destruct (String.prefix _ k); cbn [andb]; [|reflexivity].
  fold (logical_key k). unfold bind. rewrite isExpired_eq. cbn [fst].
  destruct (match parseInt _ with Int _ => _ | _ => _ end); [|reflexivity].
  by destruct (removeItem (logical_key k) now s).
Qed.

Lemma forEach_clear (ks ret : list string) (now : Z) (s : S) :
  forEach ks clearExpired_callback ret now s
  = (ret ++ (sweep (logical_key <$>
               filter (λ k, String.prefix _expiration_key_prefix k = true) ks)
               now s).1,
     (sweep (logical_key <$>
               filter (λ k, String.prefix _expiration_key_prefix k = true) ks)
               now s).2).
Proof.
  revert ret s. induction ks as [|k ks IH]; intros ret s.
  - simpl. by rewrite app_nil_r.
  - cbn [forEach]. unfold bind. rewrite clearExpired_callback_eq, filter_cons.
    destruct (decide (String.prefix _expiration_key_prefix k = true)) as [Hp|Hp].
    + rewrite Hp. cbn [andb]. rewrite fmap_cons. cbn [sweep].
      destruct ((isExpired (logical_key k) now s).1).
      * rewrite IH. destruct (sweep _ now (removeItem _ now s).2) as [r s'].
        cbn [fst snd]. by rewrite <- app_assoc.
      * apply IH.
    + apply not_true_is_false in Hp. rewrite Hp. apply IH.
Qed.

Lemma getItem_removeItem_null (key x : string) (s : S) :
  storage_getItem x s = VNull →
  storage_getItem x (storage_removeItem key s).2 = VNull.
Proof.
  intros Hx. destruct (decide (key = x)) as [->|Hne].
  - apply getItem_removeItem.
  - by rewrite getItem_removeItem_ne.
Qed.

Lemma removeItem_null (key x : string) (now : Z) (s : S) :
  storage_getItem x s = VNull →
  storage_getItem x (removeItem key now s).2 = VNull.
Proof.
  intros Hx. rewrite removeItem_eq. simpl. by do 2 apply getItem_removeItem_null.
Qed.

Lemma removeItem_value (key : string) (now : Z) (s : S) :
  storage_getItem key (removeItem key now s).2 = VNull.
Proof.
  rewrite removeItem_eq. simpl. apply getItem_removeItem_null, getItem_removeItem.
Qed.

Lemma removeItem_record (key : string) (now : Z) (s : S) :
  expiry_record key (removeItem key now s).2 = VNull.
Proof. rewrite removeItem_eq. simpl. apply getItem_removeItem. Qed.

Lemma removeItem_other (key x : string) (now : Z) (s : S) :
  x ≠ key → x ≠ _expiration_key_prefix +:+ key →
  storage_getItem x (removeItem key now s).2 = storage_getItem x s.
Proof.
  intros H1 H2. rewrite removeItem_eq. simpl.
  by rewrite !getItem_removeItem_ne.
Qed.

Lemma removeItem_enumerate (key x : string) (now : Z) (s : S) :
  x ∈ enumerate (removeItem key now s).2
  ↔ x ∈ enumerate s ∧ x ≠ key ∧ x ≠ _expiration_key_prefix +:+ key.
Proof.
  rewrite removeItem_eq. simpl. rewrite !enumerate_removeItem. tauto.
Qed.

Lemma isExpired_null (key : string) (now : Z) (s : S) :
  expiry_record key s = VNull → (isExpired key now s).1 = false.
Proof. intros Hrec. rewrite isExpired_eq, Hrec. reflexivity. Qed.

(** A storage key that reads [null] makes the callback do nothing. *)
Lemma clearExpired_callback_null (k : string) (ret : list string) (now : Z) (s : S) :
  storage_getItem k s = VNull → clearExpired_callback k ret now s = (ret, s).
Proof.
  intros Hk. rewrite clearExpired_callback_eq.
  destruct (String.prefix _ k) eqn:Hp; [|done]. simpl.
  rewrite isExpired_null; [done|]. unfold expiry_record, logical_key.
  by rewrite <- prefix_split.
Qed.

Lemma forIn_clear (ks ret : list string) (now : Z) (s : S) :
  storage_keys = None → Object_keys = None → storage_length_key = None →
  (∀ k, k ∈ ks → k ∈ storage_for_in s ∨ storage_getItem k s = VNull) →
  forIn ks clearExpired_callback ret now s = forEach ks clearExpired_callback ret now s.
Proof.
  intros E1 E2 E3.
  assert (∀ s, enumerate s = storage_for_in s) as Henum.
  { intros s0. unfold enumerate. by rewrite E1, E2, E3. }
  revert ret s. induction ks as [|k ks IH]; intros ret s Hinv; [done|].
  simpl. unfold bind, _storage_read.
  assert (∀ r, (∀ x, x ∈ ks →
            x ∈ storage_for_in (clearExpired_callback k r now s).2
            ∨ storage_getItem x (clearExpired_callback k r now s).2 = VNull)) as Hnext.
  { intros r x Hx. rewrite clearExpired_callback_eq.
    destruct (_ && _); simpl; [|apply Hinv; by right].
    destruct (Hinv x ltac:(by right)) as [Hlive|Hnull].
    - destruct (decide (x = logical_key k)) as [->|Hne1].
      { right. apply removeItem_value. }
      destruct (decide (x = _expiration_key_prefix +:+ logical_key k)) as [->|Hne2].
      { right. apply removeItem_record. }
      left. rewrite <- Henum. apply removeItem_enumerate. by rewrite Henum.
    - right. by apply removeItem_null. }
  case_bool_decide as Hlive.
  - destruct (clearExpired_callback k ret now s) as [ret' s'] eqn:Hcb.
    apply IH. specialize (Hnext ret). by rewrite Hcb in Hnext.
  - destruct (Hinv k ltac:(by left)) as [?|Hnull]; [done|].
    rewrite clearExpired_callback_null by done. apply IH.
    intros x Hx. apply Hinv. by right.
Qed.

(** [clearExpired] does what the specification words say. *)
Lemma clearExpired_refines (now : Z) (s : S) :
  clearExpired now s = clearExpired_spec now s.
Proof.
  unfold clearExpired_spec, record_keys.
  change (clearExpired now s) with (_iterKeys clearExpired_callback [] now s).
  rewrite (surjective_pairing (sweep _ now s)).
  rewrite <- (app_nil_l (sweep _ now s).1), <- forEach_clear.
  unfold _iterKeys, enumerate.
  destruct storage_keys as [keys_fn|] eqn:E1; [done|].
  destruct Object_keys as [Object_keys_fn|] eqn:E2; [done|].
  destruct storage_length_key as [[length_fn key_fn]|] eqn:E3; [done|].
  unfold bind, _storage_read. apply forIn_clear; auto.
Qed.

End sweep.

Lemma app_assoc_string (a b c : string) : (a +:+ b) +:+ c = a +:+ (b +:+ c).
Proof.
  induction a as [|x a IH]; [done|]. rewrite !app_String. by rewrite IH.
Qed.

Section sweep_properties.
Context {S : Type} `{StorageLaws S}.

Lemma sweep_null (L : list string) (x : string) (now : Z) (s : S) :
  storage_getItem x s = VNull → storage_getItem x (sweep L now s).2 = VNull.
Proof.
  revert s. induction L as [|k L IH]; intros s Hx; [done|]. cbn [sweep].
  destruct ((isExpired k now s).1); [|by apply IH].
  specialize (IH (removeItem k now s).2 (removeItem_null k x now s Hx)).
  by destruct (sweep L now (removeItem k now s).2).
Qed.

Lemma sweep_ordered (L : list string) (now : Z) (s : S) :
  (sweep L now s).1 `sublist_of` L.
Proof.
  revert s. induction L as [|k L IH]; intros s; [done|]. cbn [sweep].
  destruct ((isExpired k now s).1).
  - specialize (IH (removeItem k now s).2).
    destruct (sweep L now (removeItem k now s).2). by apply sublist_skip.
  - by apply sublist_cons.
Qed.

Lemma sweep_removed (L : list string) (k : string) (now : Z) (s : S) :
  k ∈ (sweep L now s).1 →
  storage_getItem k (sweep L now s).2 = VNull
  ∧ expiry_record k (sweep L now s).2 = VNull.
Proof.
  revert s. induction L as [|k0 L IH]; intros s; [by intros ?%elem_of_nil|].
  cbn [sweep]. destruct ((isExpired k0 now s).1); [|by apply IH].
  pose proof (IH (removeItem k0 now s).2) as IH'.
  pose proof (sweep_null L k now (removeItem k0 now s).2) as Hv.
  pose proof (sweep_null L (_expiration_key_prefix +:+ k) now
                (removeItem k0 now s).2) as Hr.
  destruct (sweep L now (removeItem k0 now s).2) as [removed s'].
  cbn [fst snd] in *. intros [->|Hin]%elem_of_cons; [|by apply IH'].
  split; [apply Hv, removeItem_value | apply Hr, removeItem_record].
Qed.

(** Entries that are neither a removed key nor its record are untouched. *)
Lemma sweep_other (L : list string) (x : string) (now : Z) (s : S) :
  (∀ k, k ∈ (sweep L now s).1 → x ≠ k ∧ x ≠ _expiration_key_prefix +:+ k) →
  storage_getItem x (sweep L now s).2 = storage_getItem x s.
Proof.
  revert s. induction L as [|k0 L IH]; intros s; [done|].
  cbn [sweep]. destruct ((isExpired k0 now s).1); [|by apply IH].
  specialize (IH (removeItem k0 now s).2).
  destruct (sweep L now (removeItem k0 now s).2) as [removed s'].
  cbn [fst snd] in *. intros Hx.
  rewrite IH by (intros k Hk; apply Hx; by right).
  destruct (Hx k0 ltac:(by left)). by apply removeItem_other.
Qed.

Lemma prefixed_prefix (k : string) :
  String.prefix _expiration_key_prefix (_expiration_key_prefix +:+ k) = true.
Proof. apply prefix_app. Qed.

Lemma sweep_exact (L : list string) (now : Z) (s s0 : S) :
  NoDup L →
  (∀ k, k ∈ L → String.prefix _expiration_key_prefix k = false) →
  (∀ k, k ∈ L → expiry_record k s = expiry_record k s0) →
  (sweep L now s).1 = filter (λ k, (isExpired k now s0).1 = true) L.
Proof.
  revert s. induction L as [|k L IH]; intros s Hnd Hpre Hrec; [done|].
  apply NoDup_cons in Hnd as [Hk Hnd].
  assert ((isExpired k now s).1 = (isExpired k now s0).1) as Hexp.
  { rewrite !isExpired_eq. cbn [fst]. rewrite Hrec; [done | by left]. }
  cbn [sweep]. rewrite filter_cons, Hexp.
  destruct ((isExpired k now s0).1).
  - rewrite decide_True by done.
    specialize (IH (removeItem k now s).2 Hnd).
    destruct (sweep L now (removeItem k now s).2) as [removed s'].
    cbn [fst] in *. f_equal. apply IH.
    + intros k' Hk'. apply Hpre. by right.
    + intros k' Hk'. rewrite <- Hrec by (by right). unfold expiry_record.
      apply removeItem_other.
      * intros Heq. pose proof (prefixed_prefix k') as Hp.
        rewrite Heq, Hpre in Hp; [done | by left].
      * intros Heq%String.app_inj. by subst.
  - rewrite decide_False by done. apply IH; [done|..].
    + intros k' Hk'. apply Hpre. by right.
    + intros k' Hk'. apply Hrec. by right.
Qed.


Lemma record_keys_elem (sk : string) (s : S) :
  sk ∈ record_keys s
  ↔ sk ∈ enumerate s ∧ sk = _expiration_key_prefix +:+ logical_key sk.
Proof.
  unfold record_keys. rewrite list_elem_of_filter. split.
  - intros [Hp Hin]. split; [done|]. by apply prefix_split.
  - intros [Hin Heq]. split; [|done]. rewrite Heq. apply prefixed_prefix.
Qed.

Lemma logical_keys_elem (k : string) (s : S) :
  k ∈ logical_key <$> record_keys s
  ↔ _expiration_key_prefix +:+ k ∈ enumerate s.
Proof.
  rewrite list_elem_of_fmap. split.
  - intros (sk & -> & [Hin Heq]%record_keys_elem). by rewrite <- Heq.
  - intros Hin. exists (_expiration_key_prefix +:+ k).
    unfold logical_key. rewrite substr_app. split; [done|].
    apply record_keys_elem. split; [done|].
    unfold logical_key. by rewrite substr_app.
Qed.

Lemma logical_keys_NoDup (s : S) : NoDup (logical_key <$> record_keys s).
Proof.
  apply NoDup_fmap_2_strong.
  - intros a b [_ Ha]%record_keys_elem [_ Hb]%record_keys_elem Heq.
    rewrite Ha, Hb. by rewrite Heq.
  - apply NoDup_filter, enumerate_NoDup.
Qed.

Lemma logical_keys_unprefixed (k : string) (s : S) :
  namespace_respected s →
  k ∈ logical_key <$> record_keys s →
  String.prefix _expiration_key_prefix k = false.
Proof.
  intros Hns Hin%logical_keys_elem. apply Hns in Hin.
  destruct (String.prefix _expiration_key_prefix k) eqn:Hp; [|done].
  apply prefix_split in Hp. rewrite Hp, <- app_assoc_string in Hin.
  by rewrite prefix_app in Hin.
Qed.

Lemma isExpired_enumerated (k : string) (now : Z) (s : S) :
  (isExpired k now s).1 = true → _expiration_key_prefix +:+ k ∈ enumerate s.
Proof.
  intros Hexp. apply enumerate_getItem. intros Hnull.
  by rewrite isExpired_null in Hexp.
Qed.

Lemma clearExpired_exact (now : Z) (s : S) :
  namespace_respected s →
  (clearExpired now s).1
  = filter (λ k, (isExpired k now s).1 = true) (logical_key <$> record_keys s)
  ∧ ∀ k, (isExpired k now s).1 = true ↔ k ∈ (clearExpired now s).1.
Proof.
  intros Hns.
  assert ((clearExpired now s).1
    = filter (λ k, (isExpired k now s).1 = true) (logical_key <$> record_keys s))
    as Heq.
  { rewrite clearExpired_refines. apply sweep_exact; [|by intros; eapply logical_keys_unprefixed|done].
    apply logical_keys_NoDup. }
  split; [done|]. intros k. rewrite Heq, list_elem_of_filter, logical_keys_elem.
  split; [|by intros [? _]]. intros Hexp. split; [done|].
  by apply isExpired_enumerated with now.
Qed.

End sweep_properties.


Section expiry_records.
Context {S : Type} `{StorageLaws S}.

Lemma getTimeLeft_null_iff (key : string) (now : Z) (s : S) :
  (getTimeLeft key now s).1 = VNull
  ↔ parseInt (expiry_record key s) = NaN ∨ parseInt (expiry_record key s) = Int 0.
Proof.
  rewrite getTimeLeft_eq. cbn [fst].
  destruct (parseInt_whole (expiry_record key s)) as [[e ->]| ->]; [|naive_solver].
  destruct (Z.eqb_spec e 0) as [->|Hne]; [naive_solver|].
  split; [done|]. intros [?|[= ?]]; done.
Qed.

Lemma getTimeLeft_Int (key : string) (now e : Z) (s : S) :
  parseInt (expiry_record key s) = Int e → e ≠ 0 →
  (getTimeLeft key now s).1 = VNum (Int (e - now)).
Proof.
  intros He Hne. rewrite getTimeLeft_eq, He. cbn [fst].
  by destruct (Z.eqb_spec e 0).
Qed.

Lemma isExpired_Int (key : string) (now e : Z) (s : S) :
  parseInt (expiry_record key s) = Int e → e ≠ 0 →
  (isExpired key now s).1 = (e <=? now).
Proof.
  intros He Hne. rewrite isExpired_eq, He. cbn [fst].
  by destruct (Z.eqb_spec e 0).
Qed.

Lemma isExpired_timeLeft (key : string) (now : Z) (s : S) :
  (isExpired key now s).1 = true
  ↔ ∃ z, (getTimeLeft key now s).1 = VNum (Int z) ∧ z ≤ 0.
Proof.
  rewrite isExpired_eq, getTimeLeft_eq. cbn [fst].
  destruct (parseInt_whole (expiry_record key s)) as [[e ->]| ->].
  - destruct (Z.eqb_spec e 0) as [->|Hne]; cbn [negb andb].
    + split; [done | by intros (z & ? & _)].
    + rewrite Z.leb_le. split.
      * intros Hle. exists (e - now). split; [done | lia].
      * intros (z & [= <-] & Hz). lia.
  - split; [done | by intros (z & ? & _)].
Qed.


Lemma num_gt_zero_truthy (n : number) :
  num_lt (Int 0) n = true → truthy_num n = true.
Proof.
  unfold num_lt. destruct n as [z|m e|[|]|]; cbn; try done.
  - rewrite andb_true_iff, !negb_true_iff, Z.leb_le, Z.leb_gt, Z.eqb_neq. lia.
  - rewrite andb_true_iff, !negb_true_iff, Z.leb_le, Z.leb_gt, Z.eqb_neq. lia.
Qed.

(** After [setItem] with a number for the expiration that is not falsy. *)
Lemma setItem_number (key : string) (val : value) (t now : Z) (s : S) :
  t ≠ 0 →
  (setItem key val (VNum (Int t)) now s).2
  = (storage_setItem (_expiration_key_prefix +:+ key) (VNum (Int (now + t)))
       (storage_setItem key val s).2).2
  ∧ parseInt (expiry_record key (setItem key val (VNum (Int t)) now s).2)
    = Int (now + t)
  ∧ storage_getItem key (setItem key val (VNum (Int t)) now s).2
    = storage_getItem key (storage_setItem key val s).2.
Proof.
  intros Ht. rewrite setItem_eq. cbn [snd truthy truthy_num].
  destruct (Z.eqb_spec t 0) as [?|_]; [done|]. cbn [negb].
  rewrite updateExpiration_eq. cbn [js_add ToNumber_prim num_add].
  repeat split.
  - unfold expiry_record, parseInt. rewrite getItem_setItem_num. apply parseInt_Int.
  - apply getItem_setItem_ne, prefixed_ne.
Qed.

Lemma setItem_falsy (key : string) (val expiration : value) (now : Z) (s : S) :
  truthy expiration = false →
  (setItem key val expiration now s).2 = (storage_setItem key val s).2
  ∧ expiry_record key (setItem key val expiration now s).2 = expiry_record key s.
Proof.
  intros Hf. rewrite setItem_eq, Hf. cbn [snd]. split; [done|].
  unfold expiry_record. apply getItem_setItem_ne. intros Heq.
  by apply (prefixed_ne key).
Qed.

End expiry_records.

Section json.
Context {S : Type} `{StorageLaws S} `{JSON}.


Lemma setJson_eq (key : string) (val expiration : value) (now : Z) (s : S) :
  val ≠ VUndefined →
  setJson key val expiration now s
  = (Ok (setItem key (JSON_stringify val) expiration now s).1,
     (setItem key (JSON_stringify val) expiration now s).2).
Proof.
  intros Hval. unfold setJson, bind, pure.
  destruct val; try done; by destruct (setItem key _ expiration now s).
Qed.

Lemma getJson_eq (key : string) (now : Z) (s : S) :
  getJson key now s
  = (match (getItem key now s).1 with
     | VNull => Ok VNull
     | val => JSON_parse (ToString val)
     end, (getItem key now s).2).
Proof.
  unfold getJson, bind, pure. destruct (getItem key now s) as [val s'].
  by destruct val.
Qed.

Lemma setItem_value_str (key txt : string) (expiration : value) (now : Z) (s : S) :
  storage_getItem key (setItem key (VStr txt) expiration now s).2 = VStr txt.
Proof.
  rewrite setItem_eq. cbn [snd]. destruct (truthy expiration).
  - rewrite updateExpiration_eq, getItem_setItem_ne by apply prefixed_ne.
    apply getItem_setItem_str.
  - apply getItem_setItem_str.
Qed.

Lemma getJson_after_setItem (key txt : string) (expiration : value)
    (now now' : Z) (s : S) :
  (getJson key now' (setItem key (VStr txt) expiration now s).2).1
  = if (isExpired key now' (setItem key (VStr txt) expiration now s).2).1
    then Ok VNull
    else JSON_parse txt.
Proof.
  rewrite getJson_eq, getItem_eq. cbn [fst].
  destruct ((isExpired key now' _).1); [done|]. cbn [fst].
  by rewrite setItem_value_str.
Qed.

End json.


(** ** The tests of the repository, replayed on the model *)

(** "Basic set, get, clear and remove". *)
Example test_basic (s0 := (∅ : gmap string value)) :
  let s1 := (setItem "test" (VStr "foo") VUndefined 0 s0).2 in
  let s2 := (removeItem "test" 0 s1).2 in
  let s3 := (setItem "test2" (VStr "bar") VUndefined 0
               (setItem "test1" (VStr "foo") VUndefined 0 s2).2).2 in
  let s4 := (clear 0 s3).2 in
  let s5 := (setItem "__noex" (VStr "bar") VUndefined 0 s4).2 in
  (getItem "test" 0 s1).1 = VStr "foo"
  ∧ (getItem "test" 0 s2).1 = VNull
  ∧ (keys VUndefined 0 s3).1 ≡ₚ ["test1"; "test2"]
  ∧ (keys VUndefined 0 s4).1 = []
  ∧ (getItem "test1" 0 s4).1 = VNull
  ∧ (getItem "__noex" 0 s5).1 = VStr "bar"
  ∧ (getTimeLeft "__noex" 0 s5).1 = VNull
  ∧ (isExpired "__noex" 0 s5).1 = false.
Proof.
  cbv zeta. split; [vm_compute; reflexivity|]. split; [vm_compute; reflexivity|].
  split; [apply (bool_decide_unpack _); vm_compute; exact I|].
  vm_compute. repeat split.
Qed.

(** "JSON get / set", with the JSON object [hostJSON]. *)
Example test_json (s0 := (∅ : gmap string value)) :
  let val := VObj [("a", VNum (Int 5)); ("b", VNum NaN); ("c", VNull);
                   ("d", VUndefined); ("e", VStr "aa")]%string in
  let expected := VObj [("a", VNum (Int 5)); ("b", VNull); ("c", VNull);
                        ("e", VStr "aa")]%string in
  let s1 := (setJson "test" val VUndefined 0 s0).2 in
  let s2 := (setJson "test" VNull VUndefined 0 (removeItem "test" 0 s1).2).2 in
  JSON_parse (ToString (JSON_stringify val)) = Ok expected
  ∧ (getJson "test" 0 s1).1 = Ok expected
  ∧ (getItem "test" 0 (removeItem "test" 0 s1).2).1 = VNull
  ∧ (getJson "test" 0 s2).1 = Ok VNull
  ∧ (setJson "test" VUndefined VUndefined 0 s2).1
    = Throw (Error "Cannot set undefined value as JSON!").
Proof. vm_compute. repeat split. Qed.

(** "Basic API on items with expiration", on the custom storage class and on
    the storage of the browser. *)
Example test_expiration_customStorage :
  expiration_assertions (∅ : gmap string value) (VStr "foo").
Proof. vm_compute. repeat split. Qed.

Example test_expiration_localStorage :
  expiration_assertions (∅ : gmap string string) (VStr "foo").
Proof. vm_compute. repeat split. Qed.

(** "Clear expired", with the keys [a], [b], [c] and [d]. *)
Example test_clear_expired :
  (keys VUndefined 0 four_items).1 ≡ₚ ["a"; "b"; "c"; "d"]
  ∧ (keys (VBool true) 19 four_items).1 ≡ₚ ["a"; "b"; "c"; "d"]
  ∧ (keys (VBool false) 19 four_items).1 ≡ₚ ["c"; "d"]
  ∧ (clearExpired 19 four_items).1 ≡ₚ ["a"; "b"]
  ∧ (keys (VBool true) 19 (clearExpired 19 four_items).2).1 ≡ₚ ["c"; "d"].
Proof. repeat split; apply (bool_decide_unpack _); vm_compute; exact I. Qed.

(** ** Expirations that are not whole numbers *)

(** One second and a half at time 0: the record holds [1.5], in which
    [parseInt] reads 1; one second is left, and the entry is expired at
    time 1. *)
Example expiration_fraction
    (s := (setItem "K" (VStr "v") (VNum (Dec 15 1)) 0
             (∅ : gmap string string)).2) :
  expiry_record "K" s = VStr "1.5"
  ∧ parseInt (expiry_record "K" s) = Int 1
  ∧ (getTimeLeft "K" 0 s).1 = VNum (Int 1)
  ∧ (isExpired "K" 1 s).1 = true
  ∧ (getItem "K" 1 s).1 = VNull.
Proof. repeat split; vm_compute; reflexivity. Qed.

(** Half a second at time 7: the record holds [7.5], in which [parseInt]
    reads 7; no time is left and the entry is expired at once. *)
Example expiration_half_a_second
    (s := (setItem "K" (VStr "v") (VNum (Dec 5 1)) 7
             (∅ : gmap string value)).2) :
  expiry_record "K" s = VNum (Dec 75 1)
  ∧ parseInt (expiry_record "K" s) = Int 7
  ∧ (getTimeLeft "K" 7 s).1 = VNum (Int 0)
  ∧ (getItem "K" 7 s).1 = VNull.
Proof. repeat split; vm_compute; reflexivity. Qed.

(** [Infinity] at time 5: the record holds [Infinity], in which [parseInt]
    reads no number; the entry has no time left to speak of and is not
    expired. *)
Example expiration_Infinity
    (s := (setItem "K" (VStr "v") (VNum (Inf false)) 5
             (∅ : gmap string string)).2) :
  expiry_record "K" s = VStr "Infinity"
  ∧ parseInt (expiry_record "K" s) = NaN
  ∧ (getTimeLeft "K" 1000000 s).1 = VNull
  ∧ (getItem "K" 1000000 s).1 = VStr "v".
Proof. repeat split; vm_compute; reflexivity. Qed.

(** * The properties of the specification *)

(** C1. [getItem] on a key that is expired when it is called answers [null]
    and leaves the store with neither the value nor the expiry record of the
    key: both read [null] and neither is enumerated any more, while every
    other entry reads as before.  On a key that is not expired it answers
    what the backing store reads for the key ([null] when the key was never
    set) and leaves the store as it was. *)
Theorem getItem_evicts_expired {S : Type} `{StorageLaws S}
    (key : string) (now : Z) (s : S) :
  ((isExpired key now s).1 = true →
     (getItem key now s).1 = VNull
     ∧ storage_getItem key (getItem key now s).2 = VNull
     ∧ expiry_record key (getItem key now s).2 = VNull
     ∧ (key ∉ enumerate (getItem key now s).2)
     ∧ ((_expiration_key_prefix +:+ key) ∉ enumerate (getItem key now s).2)
     ∧ (∀ other, other ≠ key → other ≠ _expiration_key_prefix +:+ key →
          storage_getItem other (getItem key now s).2
          = storage_getItem other s))
  ∧ ((isExpired key now s).1 = false →
     getItem key now s = (storage_getItem key s, s)).
Proof.
  rewrite getItem_eq. split; intros ->; [|done]. cbn [fst snd].
  split; [done|]. split; [apply removeItem_value|].
  split; [apply removeItem_record|].
  split; [by intros (_ & ? & ?)%removeItem_enumerate|].
  split; [by intros (_ & ? & ?)%removeItem_enumerate|].
  intros other ? ?. by apply removeItem_other.
Qed.

Lemma getItem_evicts_expired_witness :
  (getItem "a" 19 four_items).1 = VNull
  ∧ four_items !! "a" = Some (VStr "foo")
  ∧ storage_getItem "a" (getItem "a" 19 four_items).2 = VNull
  ∧ expiry_record "a" (getItem "a" 19 four_items).2 = VNull
  ∧ getItem "c" 19 four_items = (VStr "woo", four_items)
  ∧ getItem "never set" 19 four_items = (VNull, four_items).
Proof.
  destruct (getItem_evicts_expired "a" 19 four_items) as [Hexp _].
  destruct (getItem_evicts_expired "c" 19 four_items) as [_ Hlive].
  destruct (getItem_evicts_expired "never set" 19 four_items) as [_ Hnone].
  assert ((isExpired "a" 19 four_items).1 = true) as Ha by (vm_compute; reflexivity).
  assert ((isExpired "c" 19 four_items).1 = false) as Hc by (vm_compute; reflexivity).
  assert ((isExpired "never set" 19 four_items).1 = false) as Hn
    by (vm_compute; reflexivity).
  destruct (Hexp Ha) as (? & ? & ? & _).
  split; [done|]. split; [vm_compute; reflexivity|]. split; [done|].
  split; [done|]. split; [rewrite (Hlive Hc) | rewrite (Hnone Hn)];
    vm_compute; reflexivity.
Defined.


(** C2 as it is stated fails: an expiry record that holds the
    instant 0 is present and parses as a number, yet [getTimeLeft] answers
    [null], not 0 minus the timestamp. *)
Lemma getTimeLeft_zero_record_counterexample :
  expiry_record "K" zero_record = VNum (Int 0)
  ∧ parseInt (expiry_record "K" zero_record) = Int 0
  ∧ (getTimeLeft "K" 5 zero_record).1 = VNull
  ∧ ¬ getTimeLeft_null_exactly_when_unparseable "K" 5 zero_record.
Proof.
  split; [vm_compute; reflexivity|]. split; [vm_compute; reflexivity|].
  split; [vm_compute; reflexivity|]. intros [[Hnull _] _].
  destruct Hnull as [Habs|Hnan]; [vm_compute; reflexivity | |];
    vm_compute in *; discriminate.
Qed.

(** C2 (amended). [getTimeLeft] answers [null] exactly when the expiry
    record is absent, or [parseInt] finds no number in it, or the number it
    finds is zero; otherwise it answers that number minus the timestamp,
    which may be negative.  After [setItem(K, v, t)] with [t] positive at
    time [T], and provided the recorded instant [T + t] is not zero, the time
    left is 0 at time [T + t] and -5 at time [T + t + 5]. *)
Theorem getTimeLeft_spec {S : Type} `{StorageLaws S}
    (key : string) (now : Z) (s : S) :
  ((getTimeLeft key now s).1 = VNull
   ↔ expiry_record key s = VNull
     ∨ parseInt (expiry_record key s) = NaN
     ∨ parseInt (expiry_record key s) = Int 0)
  ∧ (∀ e, parseInt (expiry_record key s) = Int e → e ≠ 0 →
       (getTimeLeft key now s).1 = VNum (Int (e - now)))
  ∧ (∀ val t, 0 < t → now + t ≠ 0 →
       (getTimeLeft key (now + t)
          (setItem key val (VNum (Int t)) now s).2).1 = VNum (Int 0)
       ∧ (getTimeLeft key (now + t + 5)
            (setItem key val (VNum (Int t)) now s).2).1 = VNum (Int (-5))).
Proof.
  split; [|split].
  - rewrite getTimeLeft_null_iff. split; [tauto|].
    intros [Habs|Hrest]; [|done]. left. by rewrite Habs.
  - intros e. apply getTimeLeft_Int.
  - intros val t Ht Hne.
    destruct (setItem_number key val t now s ltac:(lia)) as (_ & Hrec & _).
    rewrite !(getTimeLeft_Int _ _ _ _ Hrec Hne).
    split; do 2 f_equal; lia.
Qed.

Lemma getTimeLeft_spec_witness :
  (getTimeLeft "K" 10 (setItem "K" (VStr "v") (VNum (Int 10)) 0
                         (∅ : gmap string value)).2).1 = VNum (Int 0)
  ∧ (getTimeLeft "K" 15 (setItem "K" (VStr "v") (VNum (Int 10)) 0
                           (∅ : gmap string value)).2).1 = VNum (Int (-5))
  ∧ (getTimeLeft "a" 19 four_items).1 = VNum (Int (-9))
  ∧ (getTimeLeft "d" 19 four_items).1 = VNull.
Proof.
  destruct (getTimeLeft_spec "K" 0 (∅ : gmap string value)) as (_ & _ & Hset).
  destruct (Hset (VStr "v") 10 ltac:(lia) ltac:(lia)) as [H0 H5].
  destruct (getTimeLeft_spec "a" 19 four_items) as (_ & Hint & _).
  destruct (getTimeLeft_spec "d" 19 four_items) as (Hnull & _ & _).
  split; [exact H0|]. split; [exact H5|]. split.
  - apply (Hint 10); [vm_compute; reflexivity | lia].
  - apply Hnull. left. vm_compute. reflexivity.
Defined.

(** C3. [peek] leaves the store as it was, whether the entry is expired or
    not, and answers the record of the raw stored value, of the result of
    [getTimeLeft] and of a flag that is true exactly when that time left is a
    number at most 0 (the flag [isExpired] computes).  Hence a second [peek]
    answers the same as the first and the backing store still reads the
    value afterwards. *)
Theorem peek_is_read_only {S : Type} `{Storage S}
    (key : string) (now : Z) (s : S) :
  (peek key now s).2 = s
  ∧ (peek key now s).1
    = {| value_ := storage_getItem key s;
         timeLeft_ := (getTimeLeft key now s).1;
         isExpired_ := (isExpired key now s).1 |}
  ∧ (isExpired_ (peek key now s).1 = true
     ↔ ∃ z, timeLeft_ (peek key now s).1 = VNum (Int z) ∧ z ≤ 0)
  ∧ peek key now (peek key now s).2 = peek key now s
  ∧ storage_getItem key (peek key now (peek key now s).2).2
    = storage_getItem key s.
Proof.
  assert (peek key now s
          = ({| value_ := storage_getItem key s;
                timeLeft_ := (getTimeLeft key now s).1;
                isExpired_ := (isExpired key now s).1 |}, s)) as Hpeek.
  { unfold peek, isExpired, bind, pure, _storage_getItem.
    rewrite getTimeLeft_eq. reflexivity. }
  rewrite !Hpeek. cbn [fst snd isExpired_ timeLeft_]. rewrite !Hpeek.
  repeat split; try done; apply isExpired_timeLeft.
Qed.

Lemma peek_is_read_only_witness :
  (peek "a" 19 four_items).1
  = {| value_ := VStr "foo"; timeLeft_ := VNum (Int (-9)); isExpired_ := true |}
  ∧ peek "a" 19 (peek "a" 19 four_items).2 = peek "a" 19 four_items
  ∧ storage_getItem "a" (peek "a" 19 (peek "a" 19 four_items).2).2 = VStr "foo".
Proof.
  destruct (peek_is_read_only "a" 19 four_items) as (_ & Hrec & _ & Htwice & Hraw).
  split; [rewrite Hrec; vm_compute; reflexivity|]. split; [exact Htwice|].
  rewrite Hraw. vm_compute. reflexivity.
Defined.

(** C5. [setItem] always answers what the backing store's [setItem]
    answered for the value.  With an expiration that is falsy (omitted, zero,
    ...) it does nothing but that write: the expiry record of the key, and so
    the time left at any instant, are what they were.  With a positive number
    [t] it then writes [getTimestamp() + t] to the expiry record of the key,
    replacing what was there, and the value written stays readable; the sum
    is written whether the positive number is whole or not. *)
Theorem setItem_expiration_only_when_truthy {S : Type} `{StorageLaws S}
    (key : string) (val expiration : value) (now : Z) (s : S) :
  (setItem key val expiration now s).1 = (storage_setItem key val s).1
  ∧ (truthy expiration = false →
       (setItem key val expiration now s).2 = (storage_setItem key val s).2
       ∧ expiry_record key (setItem key val expiration now s).2
         = expiry_record key s
       ∧ ∀ now', (getTimeLeft key now' (setItem key val expiration now s).2).1
                 = (getTimeLeft key now' s).1)
  ∧ (∀ t, expiration = VNum (Int t) → 0 < t →
       (setItem key val expiration now s).2
       = (storage_setItem (_expiration_key_prefix +:+ key)
            (VNum (Int (now + t))) (storage_setItem key val s).2).2
       ∧ parseInt (expiry_record key (setItem key val expiration now s).2)
         = Int (now + t)
       ∧ storage_getItem key (setItem key val expiration now s).2
         = storage_getItem key (storage_setItem key val s).2)
  ∧ (∀ n, expiration = VNum n → num_lt (Int 0) n = true →
       (setItem key val expiration now s).2
       = (storage_setItem (_expiration_key_prefix +:+ key)
            (VNum (num_add (Int now) n)) (storage_setItem key val s).2).2).
Proof.
  split; [by rewrite setItem_eq|]. split; [|split].
  - intros Hf. destruct (setItem_falsy key val expiration now s Hf) as [Hs Hrec].
    split; [done|]. split; [done|]. intros now'.
    by rewrite !getTimeLeft_eq, Hrec.
  - intros t -> Ht. apply setItem_number. lia.
  - intros n -> Hpos. rewrite setItem_eq. cbn [snd truthy].
    rewrite (num_gt_zero_truthy _ Hpos). by rewrite updateExpiration_eq.
Qed.

Lemma setItem_expiration_only_when_truthy_witness :
  truthy VUndefined = false ∧ truthy (VNum (Int 0)) = false
  ∧ expiry_record "a" (setItem "a" (VStr "new") VUndefined 5 four_items).2
    = VNum (Int 10)
  ∧ (getTimeLeft "a" 5 (setItem "a" (VStr "new") (VNum (Int 0)) 5 four_items).2).1
    = VNum (Int 5)
  ∧ parseInt (expiry_record "a"
                (setItem "a" (VStr "new") (VNum (Int 60)) 5 four_items).2)
    = Int 65.
Proof.
  destruct (setItem_expiration_only_when_truthy "a" (VStr "new") VUndefined 5
              four_items) as (_ & Hundef & _).
  destruct (setItem_expiration_only_when_truthy "a" (VStr "new") (VNum (Int 0)) 5
              four_items) as (_ & Hzero & _).
  destruct (setItem_expiration_only_when_truthy "a" (VStr "new") (VNum (Int 60)) 5
              four_items) as (_ & _ & Hpos & _).
  destruct (Hundef eq_refl) as (_ & Hrec & _).
  destruct (Hzero eq_refl) as (_ & _ & Hleft).
  destruct (Hpos 60 eq_refl ltac:(lia)) as (_ & Hwritten & _).
  split; [reflexivity|]. split; [reflexivity|].
  split; [rewrite Hrec; vm_compute; reflexivity|].
  split; [rewrite Hleft; vm_compute; reflexivity|]. exact Hwritten.
Defined.

(** C6. When the store has no expiry record for a key (it reads [null], or
    [undefined]), then at every timestamp [getTimeLeft] answers [null] and
    [isExpired] answers false.  In general [isExpired] answers true exactly
    when [getTimeLeft] answers a number that is at most 0. *)
Theorem no_record_never_expires {S : Type} `{Storage S} (key : string) (s : S) :
  (expiry_record key s = VNull ∨ expiry_record key s = VUndefined →
     ∀ now, (getTimeLeft key now s).1 = VNull
            ∧ (isExpired key now s).1 = false)
  ∧ (∀ now, (isExpired key now s).1 = true
            ↔ ∃ z, (getTimeLeft key now s).1 = VNum (Int z) ∧ z ≤ 0).
Proof.
  split; [|intros now; apply isExpired_timeLeft].
  intros Habs now. rewrite getTimeLeft_eq, isExpired_eq.
  by destruct Habs as [-> | ->].
Qed.

Lemma no_record_never_expires_witness :
  expiry_record "d" four_items = VNull
  ∧ (getTimeLeft "d" 1000000 four_items).1 = VNull
  ∧ (isExpired "d" 1000000 four_items).1 = false.
Proof.
  assert (expiry_record "d" four_items = VNull) as Habs by (vm_compute; reflexivity).
  destruct (no_record_never_expires "d" four_items) as [Hnever _].
  split; [exact Habs|]. exact (Hnever (or_introl Habs) 1000000).
Defined.

(** C7. [keys(includeExpired)] leaves the store as it was, so the entries
    it does not list stay stored.  It answers, in enumeration order, the
    enumerated keys that do not begin with the expiry-record prefix and,
    unless [includeExpired] is truthy, for which [isExpired] is false: no
    answered key begins with the prefix, and a key is answered exactly when
    it is enumerated, is not prefixed, and is not expired or expired keys
    were asked for. *)
Theorem keys_hides_records_and_expired {S : Type} `{Storage S}
    (includeExpired : value) (now : Z) (s : S) :
  (keys includeExpired now s).2 = s
  ∧ (keys includeExpired now s).1
    = filter (λ k, listed includeExpired now s k = true) (enumerate s)
  ∧ (∀ k, k ∈ (keys includeExpired now s).1 →
          String.prefix _expiration_key_prefix k = false)
  ∧ (∀ k, k ∈ (keys includeExpired now s).1
          ↔ k ∈ enumerate s
            ∧ String.prefix _expiration_key_prefix k = false
            ∧ (truthy includeExpired = true ∨ (isExpired k now s).1 = false))
  ∧ (∀ k, storage_getItem k (keys includeExpired now s).2 = storage_getItem k s).
Proof.
  rewrite keys_eq. cbn [fst snd].
  assert (∀ k, listed includeExpired now s k = true
               ↔ String.prefix _expiration_key_prefix k = false
                 ∧ (truthy includeExpired = true ∨ (isExpired k now s).1 = false))
    as Hlisted.
  { intros k. unfold listed.
    rewrite andb_true_iff, orb_true_iff, !negb_true_iff. tauto. }
  split; [done|]. split; [done|]. split; [|split; [|done]].
  - intros k [Hk _]%list_elem_of_filter. by apply Hlisted in Hk as [? _].
  - intros k. rewrite list_elem_of_filter, Hlisted. tauto.
Qed.

Lemma keys_hides_records_and_expired_witness :
  (keys (VBool false) 19 four_items).1 ≡ₚ ["c"; "d"]
  ∧ (keys (VBool true) 19 four_items).1 ≡ₚ ["a"; "b"; "c"; "d"]
  ∧ (keys (VBool false) 19 four_items).2 !! "a" = Some (VStr "foo")
  ∧ "__expired_storage_ts__c" ∉ (keys (VBool true) 19 four_items).1.
Proof.
  destruct (keys_hides_records_and_expired (VBool false) 19 four_items)
    as (Hs & Hf & _).
  destruct (keys_hides_records_and_expired (VBool true) 19 four_items)
    as (_ & Ht & Hnorec & _).
  split; [|split; [|split]].
  - rewrite Hf. apply (bool_decide_unpack _). vm_compute. exact I.
  - rewrite Ht. apply (bool_decide_unpack _). vm_compute. exact I.
  - rewrite Hs. vm_compute. reflexivity.
  - intros Hin. apply Hnorec in Hin. vm_compute in Hin. discriminate.
Defined.




(** C8. [setJson] with [undefined] for the value throws and writes nothing:
    the store is what it was.  With any other value, [null] included, it
    does not throw: it is [setItem] of the JSON text of the value.  Given that
    the host's JSON object writes [null] as a text that it reads back as
    [null], [getJson] after [setJson(K, null)] answers [null], at any
    time. *)
Theorem setJson_rejects_undefined {S : Type} `{StorageLaws S} `{JSON}
    (key : string) (expiration : value) (now : Z) (s : S) :
  setJson key VUndefined expiration now s
  = (Throw (Error "Cannot set undefined value as JSON!"), s)
  ∧ (∀ val, val ≠ VUndefined →
       setJson key val expiration now s
       = (Ok (setItem key (JSON_stringify val) expiration now s).1,
          (setItem key (JSON_stringify val) expiration now s).2))
  ∧ (JSON_serializable VNull →
     ∀ now', (getJson key now' (setJson key VNull expiration now s).2).1
             = Ok VNull).
Proof.
  split; [done|]. split; [intros val; apply setJson_eq|].
  intros (_ & txt & Hs & Hp) now'. rewrite setJson_eq by done. cbn [snd].
  rewrite Hs, getJson_after_setItem, Hp. by destruct (isExpired _ _ _).1.
Qed.

Lemma setJson_rejects_undefined_witness :
  setJson "K" VUndefined (VNum (Int 10)) 0 four_items
  = (Throw (Error "Cannot set undefined value as JSON!"), four_items)
  ∧ (setJson "K" VNull (VNum (Int 10)) 0 four_items).1 = Ok VUndefined
  ∧ (getJson "K" 5 (setJson "K" VNull (VNum (Int 10)) 0 four_items).2).1
    = Ok VNull.
Proof.
  destruct (setJson_rejects_undefined "K" (VNum (Int 10)) 0 four_items)
    as (Hthrow & Hok & Hnull).
  split; [exact Hthrow|]. split.
  - rewrite Hok by done. vm_compute. reflexivity.
  - apply Hnull. split; [done|]. exists "null"%string. split; reflexivity.
Defined.

(** C9. For a value [v] that is JSON-serializable, [getJson(K)] after
    [setJson(K, v, expiration)] answers [v] as long as the entry is not
    expired when it is read; in particular up to, and excluding, the instant
    [now + t] when the expiration is a positive number [t], and for ever when
    the expiration is falsy and the key had no expiry record. *)
Theorem json_round_trip {S : Type} `{StorageLaws S} `{JSON}
    (key : string) (v expiration : value) (now now' : Z) (s : S) :
  JSON_serializable v →
  ((isExpired key now' (setJson key v expiration now s).2).1 = false →
     (getJson key now' (setJson key v expiration now s).2).1 = Ok v)
  ∧ (∀ t, expiration = VNum (Int t) → 0 < t → now' < now + t →
       (getJson key now' (setJson key v expiration now s).2).1 = Ok v)
  ∧ (truthy expiration = false → expiry_record key s = VNull →
       (getJson key now' (setJson key v expiration now s).2).1 = Ok v).
Proof.
  intros (Hv & txt & Hs & Hp). rewrite setJson_eq by done. cbn [snd].
  rewrite Hs, getJson_after_setItem, Hp.
  split; [by intros ->|]. split.
  - intros t -> Ht Hlt.
    destruct (setItem_number key (VStr txt) t now s ltac:(lia)) as (_ & Hrec & _).
    rewrite isExpired_eq, Hrec. cbn [fst].
    destruct (Z.eqb_spec (now + t) 0); [done|]. cbn [negb andb].
    destruct (Z.leb_spec (now + t) now'); [lia | done].
  - intros Hf Habs.
    destruct (setItem_falsy key (VStr txt) expiration now s Hf) as (_ & Hrec).
    by rewrite isExpired_null by (by rewrite Hrec).
Qed.


Lemma json_round_trip_witness :
  JSON_serializable test_object
  ∧ (getJson "test" 9 (setJson "test" test_object (VNum (Int 10)) 0
                         (∅ : gmap string value)).2).1 = Ok test_object
  ∧ (getJson "test" 9 (setJson "test" test_object VUndefined 0
                         (∅ : gmap string value)).2).1 = Ok test_object.
Proof.
  assert (JSON_serializable test_object) as Hser.
  { split; [done|]. eexists. split; [vm_compute; reflexivity|].
    vm_compute. reflexivity. }
  destruct (json_round_trip "test" test_object (VNum (Int 10)) 0 9
              (∅ : gmap string value) Hser) as (_ & Hpos & _).
  destruct (json_round_trip "test" test_object VUndefined 0 9
              (∅ : gmap string value) Hser) as (_ & _ & Hnone).
  split; [exact Hser|]. split.
  - apply (Hpos 10); [reflexivity | lia | lia].
  - apply Hnone; reflexivity.
Defined.

(** C4. [clearExpired] does what the specification words say: it goes
    through the expiry-record keys of the enumeration, derives the logical
    key of each, and removes value and expiry record of each one it finds
    expired ([clearExpired_spec]).  The answer lists removed logical keys in
    enumeration order, every key in it reads [null], value and expiry
    record, afterwards, and the entries that are neither read as before.
    Under the key namespace invariant the answer is
    exactly the logical keys of the enumeration that were expired when
    [clearExpired] was called, and holds every key that was.  With [a], [b],
    [c] set at time 0 to expire after 10, 15 and 25 seconds and [d] set
    without expiration, [clearExpired] at time 19 answers [a] and [b] (in
    some order) and [keys(true)] then answers [c] and [d]. *)
Theorem clearExpired_sweeps :
  (∀ {S : Type} `{StorageLaws S} (now : Z) (s : S),
     clearExpired now s = clearExpired_spec now s
     ∧ (clearExpired now s).1 `sublist_of` (logical_key <$> record_keys s)
     ∧ (∀ k, k ∈ (clearExpired now s).1 →
          storage_getItem k (clearExpired now s).2 = VNull
          ∧ expiry_record k (clearExpired now s).2 = VNull)
     ∧ (∀ other,
          (∀ k, k ∈ (clearExpired now s).1 →
                other ≠ k ∧ other ≠ _expiration_key_prefix +:+ k) →
          storage_getItem other (clearExpired now s).2
          = storage_getItem other s)
     ∧ (namespace_respected s →
          (clearExpired now s).1
          = filter (λ k, (isExpired k now s).1 = true)
              (logical_key <$> record_keys s)
          ∧ ∀ k, (isExpired k now s).1 = true ↔ k ∈ (clearExpired now s).1))
  ∧ (clearExpired 19 four_items).1 ≡ₚ ["a"; "b"]
  ∧ (keys (VBool true) 19 (clearExpired 19 four_items).2).1 ≡ₚ ["c"; "d"].
Proof.
  split; [|split; apply (bool_decide_unpack _); vm_compute; exact I].
  intros S ? ? now s. split; [apply clearExpired_refines|].
  rewrite clearExpired_refines. split; [apply sweep_ordered|].
  split; [intros k; apply sweep_removed|].
  split; [intros other; apply sweep_other|].
  rewrite <- clearExpired_refines. apply clearExpired_exact.
Qed.

Lemma namespace_respected_four_items : namespace_respected four_items.
Proof.
  unfold namespace_respected. apply Forall_forall.
  vm_compute. repeat constructor.
Qed.

Lemma clearExpired_sweeps_witness :
  (clearExpired 19 four_items).1 ≡ₚ ["a"; "b"]
  ∧ storage_getItem "a" (clearExpired 19 four_items).2 = VNull
  ∧ expiry_record "a" (clearExpired 19 four_items).2 = VNull
  ∧ "c" ∉ (clearExpired 19 four_items).1.
Proof.
  destruct clearExpired_sweeps as (Hgen & Hret & _).
  destruct (Hgen _ _ _ 19 four_items) as (_ & _ & Hgone & _ & Hexact).
  destruct (Hexact namespace_respected_four_items) as [_ Hiff].
  assert ("a" ∈ (clearExpired 19 four_items).1) as Ha.
  { apply Hiff. vm_compute. reflexivity. }
  destruct (Hgone "a" Ha) as [Hv Hr].
  split; [exact Hret|]. split; [exact Hv|]. split; [exact Hr|].
  intros Hc. apply Hiff in Hc. vm_compute in Hc. discriminate.
Defined.

(** Without the key namespace invariant the sweep can miss a key: in
    [colliding_keys] the logical key ["x"] is expired at time 19, but its
    expiry record goes first, as the value of the logical key spelled like
    it, so ["x"] is not found expired any more and keeps its value. *)
Example clearExpired_without_namespace_invariant :
  (isExpired "x" 19 colliding_keys).1 = true
  ∧ (clearExpired 19 colliding_keys).1 = ["__expired_storage_ts__x"]
  ∧ storage_getItem "x" (clearExpired 19 colliding_keys).2 = VStr "v"
  ∧ ¬ namespace_respected colliding_keys.
Proof.
  split; [vm_compute; reflexivity|]. split; [vm_compute; reflexivity|].
  split; [vm_compute; reflexivity|]. intros Hns.
  assert (("__expired_storage_ts____expired_storage_ts__x" : string)
          ∈ enumerate colliding_keys) as Hin.
  { vm_compute. left. }
  apply Hns in Hin. vm_compute in Hin. discriminate.
Qed.

(** * Further properties of the code *)

(** ** The stores satisfy the rest of the contract *)

#[global] Instance testStorage_write_laws : StorageWriteLaws (gmap string value).
Proof.
  split; unfold enumerate; simpl.
  - intros key key' val s. rewrite !testStorage_keys_elem.
    destruct (decide (key = key')) as [->|Hne].
    + rewrite lookup_insert_eq. split; [by left | by eexists].
    + rewrite lookup_insert_ne by done.
      split; [by right | by intros [?|?]; [congruence|]].
  - intros key s. unfold testStorage.getItem, testStorage.clear.
    by rewrite lookup_empty.
  - intros s. unfold testStorage.keys, testStorage.clear.
    by rewrite map_to_list_empty.
Qed.

#[global] Instance localStorage_write_laws : StorageWriteLaws (gmap string string).
Proof.
  split; unfold enumerate; simpl.
  - intros key key' val s. rewrite !localStorage_keys_elem.
    destruct (decide (key = key')) as [->|Hne].
    + rewrite lookup_insert_eq. split; [by left | by eexists].
    + rewrite lookup_insert_ne by done.
      split; [by right | by intros [?|?]; [congruence|]].
  - intros key s. unfold localStorage.getItem, localStorage.clear.
    by rewrite lookup_empty.
  - intros s. unfold localStorage.keys, localStorage.clear.
    by rewrite map_to_list_empty.
Qed.

(** ** More on what the methods compute *)

Section more_equations.
Context {S : Type} `{Storage S}.

Lemma peek_eq (key : string) (now : Z) (s : S) :
  peek key now s
  = ({| value_ := storage_getItem key s;
        timeLeft_ := (getTimeLeft key now s).1;
        isExpired_ := (isExpired key now s).1 |}, s).
Proof.
  unfold peek, isExpired, bind, pure, _storage_getItem.
  rewrite getTimeLeft_eq. reflexivity.
Qed.

Lemma getItem_live (key : string) (now : Z) (s : S) :
  (isExpired key now s).1 = false →
  getItem key now s = (storage_getItem key s, s).
Proof. intros Hlive. by rewrite getItem_eq, Hlive. Qed.

Lemma getTimeLeft_absent (key : string) (now : Z) (s : S) :
  expiry_record key s = VNull → (getTimeLeft key now s).1 = VNull.
Proof. intros Hrec. rewrite getTimeLeft_eq, Hrec. reflexivity. Qed.

Lemma isExpired_later (key : string) (now now' : Z) (s : S) :
  now ≤ now' →
  (isExpired key now s).1 = true → (isExpired key now' s).1 = true.
Proof.
  intros Hle. rewrite !isExpired_eq. cbn [fst].
  destruct (parseInt_whole (expiry_record key s)) as [[e ->]| ->]; [|done].
  destruct (e =? 0); [done|]. cbn [negb andb]. rewrite !Z.leb_le. lia.
Qed.

Lemma isExpired_same_record (key : string) (now : Z) (s s' : S) :
  expiry_record key s' = expiry_record key s →
  (isExpired key now s').1 = (isExpired key now s).1.
Proof. intros Hrec. by rewrite !isExpired_eq, Hrec. Qed.

Lemma keys_elem (includeExpired : value) (now : Z) (s : S) (k : string) :
  k ∈ (keys includeExpired now s).1
  ↔ k ∈ enumerate s
    ∧ String.prefix _expiration_key_prefix k = false
    ∧ (truthy includeExpired = true ∨ (isExpired k now s).1 = false).
Proof.
  rewrite keys_eq. cbn [fst]. rewrite list_elem_of_filter. unfold listed.
  rewrite andb_true_iff, orb_true_iff, !negb_true_iff. tauto.
Qed.

End more_equations.

(** ** The constructor *)

(** X1. [new ExpiredStorage(storage)] keeps the object it was given, or the
    global [localStorage] when none was given, and only if that object has
    all of [setItem], [getItem], [removeItem] and [clear].  An object that was
    given but lacks one of them makes the constructor throw even when a
    usable [localStorage] is there; with no object at all it throws the other
    error. *)
Theorem new_ExpiredStorage_validates {S : Type}
    (storage localStorage : option (storage_object S)) :
  (∀ kept, new_ExpiredStorage storage localStorage = Ok kept →
     has_required_API kept = true
     ∧ (storage = Some kept ∨ (storage = None ∧ localStorage = Some kept)))
  ∧ (∀ given, storage = Some given →
       new_ExpiredStorage storage localStorage
       = if has_required_API given then Ok given else Throw missing_API_error)
  ∧ (storage = None →
       new_ExpiredStorage storage localStorage
       = match localStorage with
         | None => Throw no_storage_error
         | Some found =>
             if has_required_API found then Ok found
             else Throw missing_API_error
         end).
Proof.
  split; [|split].
  - intros kept. unfold new_ExpiredStorage.
    destruct storage as [given|]; [|destruct localStorage as [found|]];
      try done.
    + destruct (has_required_API given) eqn:Hapi; [|done].
      intros [= <-]. auto.
    + destruct (has_required_API found) eqn:Hapi; [|done].
      intros [= <-]. auto.
  - intros given ->. unfold new_ExpiredStorage.
    by destruct (has_required_API given).
  - intros ->. unfold new_ExpiredStorage.
    destruct localStorage as [found|]; [|done].
    by destruct (has_required_API found).
Qed.

Lemma new_ExpiredStorage_validates_witness :
  new_ExpiredStorage (Some empty_object) (Some testStorage_object)
  = Throw missing_API_error
  ∧ new_ExpiredStorage None (Some testStorage_object) = Ok testStorage_object
  ∧ new_ExpiredStorage (Some minimal_object) None = Ok minimal_object
  ∧ new_ExpiredStorage (S := unit) None None = Throw no_storage_error.
Proof.
  destruct (new_ExpiredStorage_validates (Some empty_object)
              (Some testStorage_object)) as (_ & Hgiven & _).
  destruct (new_ExpiredStorage_validates None (Some testStorage_object))
    as (_ & _ & Hdefault).
  destruct (new_ExpiredStorage_validates (Some minimal_object) None)
    as (_ & Hminimal & _).
  destruct (new_ExpiredStorage_validates (S := unit) None None)
    as (_ & _ & Hnone).
  split; [exact (Hgiven _ eq_refl)|]. split; [exact (Hdefault eq_refl)|].
  split; [exact (Hminimal _ eq_refl) | exact (Hnone eq_refl)].
Defined.

(** ** Expiration against the clock *)

(** X2. With the clock of the prototype, which counts whole seconds, an
    item set at millisecond [m0] with an expiration that is a positive whole
    number [t] of seconds (the timestamp, [t] and their sum being safe
    integers, which JavaScript adds exactly) is expired from the millisecond
    [1000 * (floor(m0 / 1000) + t)] on and not before; that instant is at
    most [t] seconds after [m0] and less than one second short of it.  (The
    recorded instant is taken not to be 0.) *)
Theorem expiration_in_real_time {S : Type} `{StorageLaws S}
    (key : string) (val : value) (t m0 m : Z) (s : S) :
  0 < t → exact_sum (getTimestamp_of_Date m0) t = true →
  getTimestamp_of_Date m0 + t ≠ 0 →
  ((isExpired key (getTimestamp_of_Date m)
      (setItem key val (VNum (Int t)) (getTimestamp_of_Date m0) s).2).1 = true
   ↔ 1000 * (getTimestamp_of_Date m0 + t) ≤ m)
  ∧ m0 + 1000 * (t - 1) < 1000 * (getTimestamp_of_Date m0 + t)
  ∧ 1000 * (getTimestamp_of_Date m0 + t) ≤ m0 + 1000 * t.
Proof.
  intros Ht _ Hne. unfold getTimestamp_of_Date in *.
  destruct (setItem_number key val t (m0 `div` 1000) s ltac:(lia))
    as (_ & Hrec & _).
  rewrite (isExpired_Int _ _ _ _ Hrec Hne), Z.leb_le.
  pose proof (Z.div_mod m0 1000 ltac:(lia)).
  pose proof (Z.mod_pos_bound m0 1000 ltac:(lia)).
  pose proof (Z.div_mod m 1000 ltac:(lia)).
  pose proof (Z.mod_pos_bound m 1000 ltac:(lia)).
  split; [|lia]. split; intros ?; lia.
Qed.

Lemma expiration_in_real_time_witness :
  (isExpired "K" (getTimestamp_of_Date 11999)
     (setItem "K" (VStr "v") (VNum (Int 2)) (getTimestamp_of_Date 10999)
        (∅ : gmap string value)).2).1 = false
  ∧ (isExpired "K" (getTimestamp_of_Date 12000)
       (setItem "K" (VStr "v") (VNum (Int 2)) (getTimestamp_of_Date 10999)
          (∅ : gmap string value)).2).1 = true.
Proof.
  destruct (expiration_in_real_time "K" (VStr "v") 2 10999 11999
              (∅ : gmap string value)) as ([Hearly _] & _);
    [lia | reflexivity | by vm_compute |].
  destruct (expiration_in_real_time "K" (VStr "v") 2 10999 12000
              (∅ : gmap string value)) as ([_ Hlate] & _);
    [lia | reflexivity | by vm_compute |].
  split.
  - destruct (isExpired "K" _ _).1 eqn:Hexp; [|done].
    specialize (Hearly eq_refl). vm_compute in Hearly. by destruct Hearly.
  - apply Hlate. by vm_compute.
Defined.

(** X3. As long as the store is not written, an entry that is expired stays
    expired as the clock advances, whether [getTimeLeft] answers [null] does
    not depend on the time, and a time left that is a number goes down by
    one for each second. *)
Theorem expiry_follows_the_clock {S : Type} `{Storage S}
    (key : string) (now now' : Z) (s : S) :
  (now ≤ now' →
     (isExpired key now s).1 = true → (isExpired key now' s).1 = true)
  ∧ ((getTimeLeft key now s).1 = VNull ↔ (getTimeLeft key now' s).1 = VNull)
  ∧ (∀ z, (getTimeLeft key now s).1 = VNum (Int z) →
       (getTimeLeft key now' s).1 = VNum (Int (z - (now' - now)))).
Proof.
  split; [apply isExpired_later|]. rewrite !getTimeLeft_eq. cbn [fst].
  destruct (parseInt_whole (expiry_record key s)) as [[e ->]| ->]; [|done].
  destruct (e =? 0); [done|]. split; [done|].
  intros z [= <-]. do 2 f_equal. lia.
Qed.

Lemma expiry_follows_the_clock_witness :
  (isExpired "a" 19 four_items).1 = true
  ∧ (isExpired "a" 1000 four_items).1 = true
  ∧ (getTimeLeft "c" 19 four_items).1 = VNum (Int 6)
  ∧ (getTimeLeft "c" 30 four_items).1 = VNum (Int (6 - (30 - 19))).
Proof.
  destruct (expiry_follows_the_clock "a" 19 1000 four_items) as (Hlater & _).
  destruct (expiry_follows_the_clock "c" 19 30 four_items) as (_ & _ & Hleft).
  assert ((isExpired "a" 19 four_items).1 = true) as Ha by (by vm_compute).
  assert ((getTimeLeft "c" 19 four_items).1 = VNum (Int 6)) as Hc
    by (by vm_compute).
  split; [exact Ha|]. split; [exact (Hlater ltac:(lia) Ha)|].
  split; [exact Hc | exact (Hleft 6 Hc)].
Defined.

(** ** Removing, writing again, reading twice *)

(** X4. [removeItem] answers what the backing store answered for the value.
    After it the key is gone for every method and at every time: [getItem]
    answers [null] and changes nothing, there is no time left and no
    expiration, [peek] shows nothing and [keys] does not list the key; the
    entries of other keys read as before.  Removing once more changes
    nothing that can be read or enumerated. *)
Theorem removeItem_forgets {S : Type} `{StorageLaws S}
    (key : string) (now : Z) (s : S) :
  (removeItem key now s).1 = (storage_removeItem key s).1
  ∧ (∀ now', getItem key now' (removeItem key now s).2
             = (VNull, (removeItem key now s).2))
  ∧ (∀ now', (getTimeLeft key now' (removeItem key now s).2).1 = VNull
             ∧ (isExpired key now' (removeItem key now s).2).1 = false)
  ∧ (∀ now', (peek key now' (removeItem key now s).2).1
             = {| value_ := VNull; timeLeft_ := VNull; isExpired_ := false |})
  ∧ (∀ includeExpired now',
       key ∉ (keys includeExpired now' (removeItem key now s).2).1)
  ∧ (∀ other, other ≠ key → other ≠ _expiration_key_prefix +:+ key →
       storage_getItem other (removeItem key now s).2 = storage_getItem other s)
  ∧ (∀ now' other,
       storage_getItem other (removeItem key now' (removeItem key now s).2).2
       = storage_getItem other (removeItem key now s).2
       ∧ (other ∈ enumerate (removeItem key now' (removeItem key now s).2).2
          ↔ other ∈ enumerate (removeItem key now s).2)).
Proof.
  pose proof (removeItem_value key now s) as Hval.
  pose proof (removeItem_record key now s) as Hrec.
  split; [by rewrite removeItem_eq|].
  split; [intros now'; by rewrite getItem_live, Hval by by apply isExpired_null|].
  split; [intros now'; split;
          [by apply getTimeLeft_absent | by apply isExpired_null]|].
  split.
  { intros now'. rewrite peek_eq. cbn [fst].
    by rewrite Hval, getTimeLeft_absent, isExpired_null. }
  split.
  { intros includeExpired now' (Hin & _)%keys_elem.
    apply removeItem_enumerate in Hin as (_ & ? & _). done. }
  split; [intros other ? ?; by apply removeItem_other|].
  intros now' other. split.
  - destruct (decide (other = key)) as [->|Hne1].
    { by rewrite removeItem_value, Hval. }
    destruct (decide (other = _expiration_key_prefix +:+ key)) as [->|Hne2].
    { fold (expiry_record key (removeItem key now' (removeItem key now s).2).2).
      fold (expiry_record key (removeItem key now s).2).
      by rewrite removeItem_record, Hrec. }
    by apply removeItem_other.
  - rewrite (removeItem_enumerate key other now' (removeItem key now s).2).
    split; [by intros [? _]|]. intros Hin. split; [done|].
    by apply removeItem_enumerate in Hin as (_ & ? & ?).
Qed.

Lemma removeItem_forgets_witness :
  getItem "c" 19 (removeItem "c" 19 four_items).2
  = (VNull, (removeItem "c" 19 four_items).2)
  ∧ (peek "c" 19 (removeItem "c" 19 four_items).2).1
    = {| value_ := VNull; timeLeft_ := VNull; isExpired_ := false |}
  ∧ storage_getItem "d" (removeItem "c" 19 four_items).2 = VStr "woo2".
Proof.
  destruct (removeItem_forgets "c" 19 four_items)
    as (_ & Hget & _ & Hpeek & _ & Hother & _).
  split; [exact (Hget 19)|]. split; [exact (Hpeek 19)|].
  rewrite Hother by done. by vm_compute.
Defined.

(** X5. A value written without an expiration after [removeItem] never
    expires, whatever expiration the key had before: [getItem] answers
    it at every time and changes nothing. *)
Theorem removeItem_then_setItem_never_expires {S : Type} `{StorageLaws S}
    (key txt : string) (expiration : value) (now now1 now' : Z) (s : S) :
  truthy expiration = false →
  getItem key now'
    (setItem key (VStr txt) expiration now1 (removeItem key now s).2).2
  = (VStr txt,
     (setItem key (VStr txt) expiration now1 (removeItem key now s).2).2).
Proof.
  intros Hf.
  destruct (setItem_falsy key (VStr txt) expiration now1
              (removeItem key now s).2 Hf) as [_ Hrec].
  rewrite getItem_live, setItem_value_str; [done|].
  apply isExpired_null. by rewrite Hrec, removeItem_record.
Qed.

Lemma removeItem_then_setItem_never_expires_witness :
  (getItem "a" 1000000
     (setItem "a" (VStr "again") VUndefined 20 (removeItem "a" 19 four_items).2).2).1
  = VStr "again".
Proof.
  by rewrite (removeItem_then_setItem_never_expires "a" "again" VUndefined
                19 20 1000000 four_items eq_refl).
Defined.

(** X6. Writing a value without an expiration over an entry that is expired
    does not bring it back: the expiry record stays, the entry is still
    expired, and the next [getItem] answers [null] and removes the new value
    with the record. *)
Theorem setItem_over_expired_is_lost {S : Type} `{StorageLaws S}
    (key : string) (val expiration : value) (now now' : Z) (s : S) :
  (isExpired key now s).1 = true → truthy expiration = false → now ≤ now' →
  (isExpired key now' (setItem key val expiration now s).2).1 = true
  ∧ (getItem key now' (setItem key val expiration now s).2).1 = VNull
  ∧ storage_getItem key
      (getItem key now' (setItem key val expiration now s).2).2 = VNull
  ∧ expiry_record key
      (getItem key now' (setItem key val expiration now s).2).2 = VNull.
Proof.
  intros Hexp Hf Hle.
  destruct (setItem_falsy key val expiration now s Hf) as [_ Hrec].
  assert ((isExpired key now' (setItem key val expiration now s).2).1 = true)
    as Hstill.
  { rewrite (isExpired_same_record _ _ _ _ Hrec). by apply isExpired_later with now. }
  split; [done|]. rewrite getItem_eq, Hstill. cbn [fst snd].
  split; [done|]. split; [apply removeItem_value | apply removeItem_record].
Qed.

Lemma setItem_over_expired_is_lost_witness :
  (isExpired "a" 19 four_items).1 = true
  ∧ (getItem "a" 20 (setItem "a" (VStr "new") VUndefined 19 four_items).2).1
    = VNull
  ∧ storage_getItem "a"
      (getItem "a" 20 (setItem "a" (VStr "new") VUndefined 19 four_items).2).2
    = VNull.
Proof.
  assert ((isExpired "a" 19 four_items).1 = true) as Ha by (by vm_compute).
  destruct (setItem_over_expired_is_lost "a" (VStr "new") VUndefined 19 20
              four_items Ha eq_refl ltac:(lia)) as (_ & Hget & Hval & _).
  split; [exact Ha|]. split; [exact Hget | exact Hval].
Defined.

(** X7. A string written at time [now] with an expiration that is a positive
    whole number [t] of seconds ([now], [t] and [now + t] being safe
    integers, which JavaScript adds exactly) is read back unchanged, the
    store left as it is, at every time before [now + t]; from [now + t] on
    (when that instant is not 0) [getItem] answers [null] and removes value
    and expiry record.  Written without an expiration to a key that has no
    expiry record, it is read back at every time. *)
Theorem setItem_getItem_round_trip {S : Type} `{StorageLaws S}
    (key txt : string) (now now' : Z) (s : S) :
  (∀ t, 0 < t → exact_sum now t = true → now' < now + t →
     getItem key now' (setItem key (VStr txt) (VNum (Int t)) now s).2
     = (VStr txt, (setItem key (VStr txt) (VNum (Int t)) now s).2))
  ∧ (∀ t, 0 < t → exact_sum now t = true → now + t ≠ 0 → now + t ≤ now' →
       (getItem key now' (setItem key (VStr txt) (VNum (Int t)) now s).2).1
       = VNull
       ∧ storage_getItem key
           (getItem key now' (setItem key (VStr txt) (VNum (Int t)) now s).2).2
         = VNull
       ∧ expiry_record key
           (getItem key now' (setItem key (VStr txt) (VNum (Int t)) now s).2).2
         = VNull)
  ∧ (∀ expiration, truthy expiration = false → expiry_record key s = VNull →
       getItem key now' (setItem key (VStr txt) expiration now s).2
       = (VStr txt, (setItem key (VStr txt) expiration now s).2)).
Proof.
  split; [|split].
  - intros t Ht _ Hlt.
    destruct (setItem_number key (VStr txt) t now s ltac:(lia)) as (_ & Hrec & _).
    rewrite getItem_live, setItem_value_str; [done|].
    rewrite isExpired_eq, Hrec. cbn [fst].
    destruct (now + t =? 0); [done|]. cbn [negb andb]. apply Z.leb_gt. lia.
  - intros t Ht _ Hne Hle.
    destruct (setItem_number key (VStr txt) t now s ltac:(lia)) as (_ & Hrec & _).
    rewrite getItem_eq, (isExpired_Int _ _ _ _ Hrec Hne).
    rewrite (proj2 (Z.leb_le _ _) Hle). cbn [fst snd].
    split; [done|]. split; [apply removeItem_value | apply removeItem_record].
  - intros expiration Hf Habs.
    destruct (setItem_falsy key (VStr txt) expiration now s Hf) as [_ Hrec].
    rewrite getItem_live, setItem_value_str; [done|].
    apply isExpired_null. by rewrite Hrec.
Qed.

Lemma setItem_getItem_round_trip_witness :
  (getItem "K" 9 (setItem "K" (VStr "v") (VNum (Int 10)) 0
                    (∅ : gmap string value)).2).1 = VStr "v"
  ∧ (getItem "K" 10 (setItem "K" (VStr "v") (VNum (Int 10)) 0
                       (∅ : gmap string value)).2).1 = VNull
  ∧ (getItem "K" 1000 (setItem "K" (VStr "v") VUndefined 0
                         (∅ : gmap string value)).2).1 = VStr "v".
Proof.
  destruct (setItem_getItem_round_trip "K" "v" 0 9 (∅ : gmap string value))
    as (Hbefore & _ & _).
  destruct (setItem_getItem_round_trip "K" "v" 0 10 (∅ : gmap string value))
    as (_ & Hafter & _).
  destruct (setItem_getItem_round_trip "K" "v" 0 1000 (∅ : gmap string value))
    as (_ & _ & Hnever).
  split; [by rewrite (Hbefore 10 ltac:(lia) eq_refl ltac:(lia))|].
  split; [exact (proj1 (Hafter 10 ltac:(lia) eq_refl ltac:(lia) ltac:(lia)))|].
  by rewrite (Hnever VUndefined eq_refl eq_refl).
Defined.

(** X8. Reading twice is reading once: at one time, a second [getItem]
    answers what the first answered and leaves the store as the first left
    it. *)
Theorem getItem_twice {S : Type} `{StorageLaws S}
    (key : string) (now : Z) (s : S) :
  getItem key now (getItem key now s).2 = getItem key now s.
Proof.
  rewrite (getItem_eq key now s).
  destruct (isExpired key now s).1 eqn:Hexp; cbn [snd].
  - rewrite getItem_live by apply isExpired_null, removeItem_record.
    by rewrite removeItem_value.
  - by rewrite getItem_eq, Hexp.
Qed.

Lemma getItem_twice_witness :
  getItem "a" 19 (getItem "a" 19 four_items).2 = getItem "a" 19 four_items
  ∧ (getItem "a" 19 four_items).2 ≠ four_items.
Proof.
  split; [exact (getItem_twice "a" 19 four_items)|].
  intros Heq. apply (f_equal (λ m : gmap string value, m !! "a")) in Heq.
  vm_compute in Heq. discriminate.
Defined.

(** ** updateExpiration *)

(** X9. [updateExpiration(key, t)], for a whole number [t] of seconds with
    [now + t] not 0 ([now], [t] and [now + t] being safe integers, which
    JavaScript adds exactly), answers what the backing store's [setItem]
    answered, touches no entry but the expiry record of the key, and leaves
    [t] seconds to live; for a positive [t] the entry is readable again even
    if it was expired.  It does not look for a value: on a key that has none
    it leaves an expiry record in the store, while [getItem] still answers
    [null]. *)
Theorem updateExpiration_sets_time_left {S : Type} `{StorageLaws S}
    (key : string) (t now : Z) (s : S) :
  exact_sum now t = true → now + t ≠ 0 →
  (updateExpiration key (VNum (Int t)) now s).1
  = (storage_setItem (_expiration_key_prefix +:+ key) (VNum (Int (now + t))) s).1
  ∧ (∀ other, other ≠ _expiration_key_prefix +:+ key →
       storage_getItem other (updateExpiration key (VNum (Int t)) now s).2
       = storage_getItem other s)
  ∧ (getTimeLeft key now (updateExpiration key (VNum (Int t)) now s).2).1
    = VNum (Int t)
  ∧ (0 < t →
       getItem key now (updateExpiration key (VNum (Int t)) now s).2
       = (storage_getItem key s, (updateExpiration key (VNum (Int t)) now s).2))
  ∧ (_expiration_key_prefix +:+ key)
      ∈ enumerate (updateExpiration key (VNum (Int t)) now s).2.
Proof.
  intros _ Hne. rewrite updateExpiration_eq.
  cbn [js_add ToNumber_prim num_add].
  set (s' := (storage_setItem _ (VNum (Int (now + t))) s).2).
  assert (parseInt (expiry_record key s') = Int (now + t)) as Hrec.
  { unfold expiry_record, parseInt, s'. rewrite getItem_setItem_num.
    apply parseInt_Int. }
  assert (∀ other, other ≠ _expiration_key_prefix +:+ key →
            storage_getItem other s' = storage_getItem other s) as Hother.
  { intros other Hoth. by apply getItem_setItem_ne. }
  split; [done|]. split; [done|]. split.
  { rewrite (getTimeLeft_Int _ _ _ _ Hrec Hne). do 2 f_equal. lia. }
  split.
  { intros Ht. rewrite getItem_live.
    - rewrite Hother; [done|]. intros Heq. by apply (prefixed_ne key).
    - rewrite (isExpired_Int _ _ _ _ Hrec Hne). apply Z.leb_gt. lia. }
  apply enumerate_getItem. intros Hnull.
  unfold expiry_record in Hrec. by rewrite Hnull in Hrec.
Qed.

Lemma updateExpiration_sets_time_left_witness :
  (isExpired "a" 19 four_items).1 = true
  ∧ getItem "a" 19 (updateExpiration "a" (VNum (Int 100)) 19 four_items).2
    = (VStr "foo", (updateExpiration "a" (VNum (Int 100)) 19 four_items).2)
  ∧ (getTimeLeft "ghost" 19
       (updateExpiration "ghost" (VNum (Int 100)) 19 four_items).2).1
    = VNum (Int 100)
  ∧ (getItem "ghost" 19
       (updateExpiration "ghost" (VNum (Int 100)) 19 four_items).2).1 = VNull.
Proof.
  destruct (updateExpiration_sets_time_left "a" 100 19 four_items
              eq_refl ltac:(lia)) as (_ & _ & _ & Hread & _).
  destruct (updateExpiration_sets_time_left "ghost" 100 19 four_items
              eq_refl ltac:(lia)) as (_ & _ & Hleft & Hghost & _).
  split; [by vm_compute|]. split; [rewrite Hread by lia; by vm_compute|].
  split; [exact Hleft|]. rewrite Hghost by lia. by vm_compute.
Defined.

(** ** clear *)

(** X10. After [clear] nothing is left, expiring or not: at every time
    [getItem] answers [null] for every key and changes nothing, no key has a
    time left or is expired, [keys] answers the empty list and [clearExpired]
    finds nothing to remove. *)
Theorem clear_wipes_everything {S : Type} `{StorageLaws S}
    `{!StorageWriteLaws S} (now : Z) (s : S) :
  (clear now s).2 = storage_clear s
  ∧ (∀ key now',
       getItem key now' (clear now s).2 = (VNull, (clear now s).2)
       ∧ (getTimeLeft key now' (clear now s).2).1 = VNull
       ∧ (isExpired key now' (clear now s).2).1 = false)
  ∧ (∀ includeExpired now',
       keys includeExpired now' (clear now s).2 = ([], (clear now s).2))
  ∧ (∀ now', clearExpired now' (clear now s).2 = ([], (clear now s).2)).
Proof.
  change ((clear now s).2) with (storage_clear s).
  assert (∀ key, expiry_record key (storage_clear s) = VNull) as Hrec.
  { intros key. apply getItem_clear. }
  split; [done|]. split; [|split].
  - intros key now'. rewrite getItem_live by by apply isExpired_null.
    rewrite getItem_clear, getTimeLeft_absent, isExpired_null by done. done.
  - intros includeExpired now'. by rewrite keys_eq, enumerate_clear.
  - intros now'. rewrite clearExpired_refines.
    unfold clearExpired_spec, record_keys. by rewrite enumerate_clear.
Qed.

Lemma clear_wipes_everything_witness :
  getItem "d" 19 (clear 19 four_items).2 = (VNull, ∅)
  ∧ keys (VBool true) 19 (clear 19 four_items).2 = ([], ∅)
  ∧ clearExpired 19 (clear 19 four_items).2 = ([], ∅).
Proof.
  destruct (clear_wipes_everything 19 four_items) as (_ & Hget & Hkeys & Hsweep).
  split; [exact (proj1 (Hget "d" 19))|].
  split; [exact (Hkeys (VBool true) 19) | exact (Hsweep 19)].
Defined.

(** ** After clearExpired *)

Section after_sweep.
Context {S : Type} `{StorageLaws S}.

Lemma sweep_nothing_expired (L : list string) (now : Z) (s : S) :
  (∀ k, (isExpired k now s).1 = false) → sweep L now s = ([], s).
Proof.
  intros Hnone. induction L as [|k L IH]; [done|].
  cbn [sweep]. by rewrite Hnone.
Qed.

Lemma clearExpired_removed_unprefixed (k : string) (now : Z) (s : S) :
  namespace_respected s → k ∈ (clearExpired now s).1 →
  String.prefix _expiration_key_prefix k = false.
Proof.
  intros Hns Hin. apply (logical_keys_unprefixed k s Hns).
  rewrite clearExpired_refines in Hin.
  eapply elem_of_sublist; [exact Hin | apply sweep_ordered].
Qed.

Lemma clearExpired_other (x : string) (now : Z) (s : S) :
  (∀ k, k ∈ (clearExpired now s).1 →
        x ≠ k ∧ x ≠ _expiration_key_prefix +:+ k) →
  storage_getItem x (clearExpired now s).2 = storage_getItem x s.
Proof. rewrite clearExpired_refines. apply sweep_other. Qed.

(** The expiry record of a key that was not removed is as it was. *)
Lemma clearExpired_record_kept (k : string) (now : Z) (s : S) :
  namespace_respected s → k ∉ (clearExpired now s).1 →
  expiry_record k (clearExpired now s).2 = expiry_record k s.
Proof.
  intros Hns Hk. unfold expiry_record.
  apply clearExpired_other. intros kj Hkj. split.
  - intros Heq. pose proof (clearExpired_removed_unprefixed kj now s Hns Hkj) as Hp.
    by rewrite <- Heq, prefixed_prefix in Hp.
  - intros Heq%String.app_inj. by subst.
Qed.

End after_sweep.

(** X11. [clearExpired] answers no key twice.  When no stored key begins
    with the prefix doubled, no entry is expired once it has run: running it
    again at the same time removes nothing, and [keys()] and [keys(true)]
    answer the same list. *)
Theorem clearExpired_leaves_none_expired {S : Type} `{StorageLaws S}
    (now : Z) (s : S) :
  NoDup (clearExpired now s).1
  ∧ (namespace_respected s →
       (∀ k, (isExpired k now (clearExpired now s).2).1 = false)
       ∧ clearExpired now (clearExpired now s).2 = ([], (clearExpired now s).2)
       ∧ (keys (VBool false) now (clearExpired now s).2).1
         = (keys (VBool true) now (clearExpired now s).2).1).
Proof.
  split.
  { rewrite clearExpired_refines.
    eapply sublist_NoDup; [apply logical_keys_NoDup | apply sweep_ordered]. }
  intros Hns.
  assert (∀ k, (isExpired k now (clearExpired now s).2).1 = false) as Hnone.
  { intros k. destruct (decide (k ∈ (clearExpired now s).1)) as [Hin|Hout].
    - apply isExpired_null. rewrite clearExpired_refines in Hin |- *.
      by apply sweep_removed.
    - rewrite (isExpired_same_record _ _ _ _
                 (clearExpired_record_kept k now s Hns Hout)).
      destruct (isExpired k now s).1 eqn:Hexp; [|done].
      by apply (clearExpired_exact now s Hns) in Hexp. }
  split; [done|]. split.
  - rewrite (clearExpired_refines now (clearExpired now s).2).
    by apply sweep_nothing_expired.
  - rewrite !keys_eq. cbn [fst]. apply list_filter_iff. intros k.
    unfold listed. by rewrite Hnone.
Qed.

Lemma clearExpired_leaves_none_expired_witness :
  NoDup (clearExpired 19 four_items).1
  ∧ (isExpired "a" 19 four_items).1 = true
  ∧ (isExpired "a" 19 (clearExpired 19 four_items).2).1 = false
  ∧ clearExpired 19 (clearExpired 19 four_items).2
    = ([], (clearExpired 19 four_items).2).
Proof.
  destruct (clearExpired_leaves_none_expired 19 four_items) as [Hnd Hafter].
  destruct (Hafter namespace_respected_four_items) as (Hnone & Hagain & _).
  split; [exact Hnd|]. split; [by vm_compute|].
  split; [exact (Hnone "a") | exact Hagain].
Defined.

(** X12. When no stored key begins with the prefix doubled, [clearExpired]
    spares what is not expired: a key that does not begin with the prefix and
    is not expired when it runs keeps its value and its expiry record, and is
    not in the answer. *)
Theorem clearExpired_spares_unexpired {S : Type} `{StorageLaws S}
    (k : string) (now : Z) (s : S) :
  namespace_respected s →
  String.prefix _expiration_key_prefix k = false →
  (isExpired k now s).1 = false →
  (k ∉ (clearExpired now s).1)
  ∧ storage_getItem k (clearExpired now s).2 = storage_getItem k s
  ∧ expiry_record k (clearExpired now s).2 = expiry_record k s
  ∧ getItem k now (clearExpired now s).2
    = (storage_getItem k s, (clearExpired now s).2).
Proof.
  intros Hns Hp Hlive.
  assert (k ∉ (clearExpired now s).1) as Hout.
  { intros Hin. apply (clearExpired_exact now s Hns) in Hin. congruence. }
  assert (storage_getItem k (clearExpired now s).2 = storage_getItem k s) as Hval.
  { apply clearExpired_other. intros kj Hkj. split.
    - intros ->. done.
    - intros ->. by rewrite prefixed_prefix in Hp. }
  pose proof (clearExpired_record_kept k now s Hns Hout) as Hrec.
  split; [done|]. split; [done|]. split; [done|].
  rewrite getItem_live, Hval; [done|].
  by rewrite (isExpired_same_record _ _ _ _ Hrec).
Qed.

Lemma clearExpired_spares_unexpired_witness :
  getItem "c" 19 (clearExpired 19 four_items).2
  = (VStr "woo", (clearExpired 19 four_items).2)
  ∧ expiry_record "c" (clearExpired 19 four_items).2 = VNum (Int 25)
  ∧ storage_getItem "d" (clearExpired 19 four_items).2 = VStr "woo2".
Proof.
  destruct (clearExpired_spares_unexpired "c" 19 four_items
              namespace_respected_four_items eq_refl)
    as (_ & _ & Hrec & Hget); [by vm_compute|].
  destruct (clearExpired_spares_unexpired "d" 19 four_items
              namespace_respected_four_items eq_refl)
    as (_ & Hval & _); [by vm_compute|].
  split; [rewrite Hget; by vm_compute|].
  split; [rewrite Hrec | rewrite Hval]; by vm_compute.
Defined.

(** ** keys *)

Lemma filter_sublist_filter {A : Type} (P Q : A → Prop)
    `{!∀ x, Decision (P x), !∀ x, Decision (Q x)} (l : list A) :
  (∀ x, P x → Q x) → filter P l `sublist_of` filter Q l.
Proof.
  intros HPQ. induction l as [|x l IH]; [done|]. rewrite !filter_cons.
  destruct (decide (P x)) as [HP|HP].
  - rewrite decide_True by auto. by apply sublist_skip.
  - destruct (decide (Q x)); [by apply sublist_cons | done].
Qed.

(** X13. [keys()] with no argument is [keys(false)].  Its answer is the
    answer of [keys(true)] with some keys taken out, in the same order, which
    in turn follows the enumeration of the store.  Every key [keys(false)]
    answers can be read: [getItem] answers its stored value and changes
    nothing.  For every key only [keys(true)] answers, [getItem] answers
    [null]. *)
Theorem keys_lists_what_getItem_reads {S : Type} `{Storage S}
    (now : Z) (s : S) :
  keys VUndefined now s = keys (VBool false) now s
  ∧ (keys (VBool false) now s).1 `sublist_of` (keys (VBool true) now s).1
  ∧ (keys (VBool true) now s).1 `sublist_of` enumerate s
  ∧ (∀ k, k ∈ (keys (VBool false) now s).1 →
       getItem k now s = (storage_getItem k s, s))
  ∧ (∀ k, k ∈ (keys (VBool true) now s).1 →
       k ∉ (keys (VBool false) now s).1 → (getItem k now s).1 = VNull).
Proof.
  split; [by rewrite !keys_eq|]. split.
  { rewrite !keys_eq. cbn [fst]. apply filter_sublist_filter.
    intros k. unfold listed. cbn [truthy orb].
    rewrite !andb_true_iff. by intros [? _]. }
  split; [rewrite keys_eq; apply sublist_filter|]. split.
  - intros k (_ & _ & [Hincl|Hlive])%keys_elem; [done|].
    by apply getItem_live.
  - intros k (Hin & Hp & _)%keys_elem Hout.
    destruct (isExpired k now s).1 eqn:Hexp.
    + by rewrite getItem_eq, Hexp.
    + destruct Hout. apply keys_elem. auto.
Qed.

Lemma keys_lists_what_getItem_reads_witness :
  getItem "c" 19 four_items = (VStr "woo", four_items)
  ∧ (getItem "a" 19 four_items).1 = VNull.
Proof.
  destruct (keys_lists_what_getItem_reads 19 four_items)
    as (_ & _ & _ & Hread & Hgone).
  split.
  - rewrite (Hread "c"); [by vm_compute|].
    apply list_elem_of_In. vm_compute. auto.
  - apply Hgone.
    + apply list_elem_of_In. vm_compute. auto 6.
    + intros Hin%list_elem_of_In. vm_compute in Hin.
      repeat destruct Hin as [Hin|Hin]; done.
Defined.

(** X14. [keys(true)] follows the writes: after [setItem(key, ...)], with or
    without an expiration, it answers [key] (unless [key] begins with the
    prefix) and the keys it answered before, whatever the order; after
    [removeItem(key)] it answers the keys it answered before but [key].  The
    expiry records never show. *)
Theorem keys_follows_writes {S : Type} `{StorageLaws S} `{!StorageWriteLaws S}
    (key : string) (val expiration : value) (now now' : Z) (s : S) :
  (∀ k, k ∈ (keys (VBool true) now' (setItem key val expiration now s).2).1
        ↔ (k = key ∧ String.prefix _expiration_key_prefix key = false)
          ∨ k ∈ (keys (VBool true) now' s).1)
  ∧ (∀ k, k ∈ (keys (VBool true) now' (removeItem key now s).2).1
          ↔ k ∈ (keys (VBool true) now' s).1 ∧ k ≠ key).
Proof.
  split; intros k; rewrite !keys_elem.
  - assert (k ∈ enumerate (setItem key val expiration now s).2
            ↔ (truthy expiration = true ∧ k = _expiration_key_prefix +:+ key)
              ∨ k = key ∨ k ∈ enumerate s) as ->.
    { rewrite setItem_eq. cbn [snd]. destruct (truthy expiration).
      - rewrite updateExpiration_eq, !enumerate_setItem.
        split; [intros [?|[?|?]]; auto | intros [[_ ?]|[?|?]]; auto].
      - rewrite enumerate_setItem.
        split; [auto | intros [[? _]|?]; [done | auto]]. }
    split.
    + intros ([[_ ->]|[->|Hin]] & Hp & _).
      * by rewrite prefixed_prefix in Hp.
      * by left.
      * right. auto.
    + intros [[-> Hp]|(Hin & Hp & _)]; auto 6.
  - rewrite removeItem_enumerate. split.
    + intros ((? & ? & _) & ? & _). auto.
    + intros ((Hin & Hp & _) & Hne). split; [|auto].
      split; [done|]. split; [done|]. intros ->.
      by rewrite prefixed_prefix in Hp.
Qed.

Lemma keys_follows_writes_witness :
  "e" ∈ (keys (VBool true) 19
           (setItem "e" (VStr "v") (VNum (Int 5)) 19 four_items).2).1
  ∧ ("__expired_storage_ts__e"
      ∉ (keys (VBool true) 19
           (setItem "e" (VStr "v") (VNum (Int 5)) 19 four_items).2).1)
  ∧ ("a" ∉ (keys (VBool true) 19 (removeItem "a" 19 four_items).2).1).
Proof.
  destruct (keys_follows_writes "e" (VStr "v") (VNum (Int 5)) 19 19 four_items)
    as [Hset _].
  destruct (keys_follows_writes "a" VNull VNull 19 19 four_items) as [_ Hrem].
  split; [apply Hset; by left|]. split.
  - intros [[Heq _]|Hin]%Hset; [done|].
    apply list_elem_of_In in Hin. vm_compute in Hin.
    repeat destruct Hin as [Hin|Hin]; done.
  - by intros [_ ?]%Hrem.
Defined.

(** ** getJson *)

(** X15. [getJson] does not call [JSON.parse] for a key that is expired or
    that the store does not hold: it answers [null] and cannot throw,
    whatever the parser does.  For a key that is not expired it answers what
    [JSON.parse] makes of the stored value, a thrown error included, and
    leaves the store as it is. *)
Theorem getJson_absent_or_expired {S : Type} `{Storage S} `{JSON}
    (key : string) (now : Z) (s : S) :
  ((isExpired key now s).1 = true ∨ storage_getItem key s = VNull →
     (getJson key now s).1 = Ok VNull)
  ∧ ((isExpired key now s).1 = false → storage_getItem key s ≠ VNull →
       getJson key now s = (JSON_parse (ToString (storage_getItem key s)), s)).
Proof.
  rewrite getJson_eq, getItem_eq. split.
  - destruct (isExpired key now s).1; [done|].
    by intros [?| ->].
  - intros -> Hval. cbn [fst snd]. by destruct (storage_getItem key s).
Qed.

Lemma getJson_absent_or_expired_witness :
  (getJson "never set" 19 four_items).1 = Ok VNull
  ∧ (getJson "a" 19 four_items).1 = Ok VNull
  ∧ getJson "c" 19 four_items = (Throw (Error "SyntaxError"), four_items).
Proof.
  destruct (getJson_absent_or_expired "never set" 19 four_items) as [Hnone _].
  destruct (getJson_absent_or_expired "a" 19 four_items) as [Hexp _].
  destruct (getJson_absent_or_expired "c" 19 four_items) as [_ Hraw].
  split; [apply Hnone; right; by vm_compute|].
  split; [apply Hexp; left; by vm_compute|].
  rewrite Hraw; by vm_compute.
Defined.

(** ** The custom storage class of the tests *)

(** X16. On keys that name no member of [Object.prototype], and as long as
    the object holds no other key, the storage class of the tests reads back
    what was written, except that [undefined] reads back as [null]; a write or
    a removal touches no other key; [keys()] lists each key once that was
    written and not removed since, a key holding [undefined] included;
    [clear()] leaves no key; and the object still holds no other key after a
    write, a removal or [clear()]. *)
Theorem testStorage_round_trip (key : string) (val : value)
    (s : gmap string value) :
  testStorage.plain_key key → testStorage.plain_keys s →
  testStorage.getItem key (testStorage.setItem key val s).2
  = match val with VUndefined => VNull | _ => val end
  ∧ testStorage.getItem key (testStorage.removeItem key s).2 = VNull
  ∧ (∀ other, testStorage.plain_key other → other ≠ key →
       testStorage.getItem other (testStorage.setItem key val s).2
       = testStorage.getItem other s
       ∧ testStorage.getItem other (testStorage.removeItem key s).2
         = testStorage.getItem other s)
  ∧ (∀ k, k ∈ testStorage.keys (testStorage.setItem key val s).2
          ↔ k = key ∨ k ∈ testStorage.keys s)
  ∧ (∀ k, k ∈ testStorage.keys (testStorage.removeItem key s).2
          ↔ k ∈ testStorage.keys s ∧ k ≠ key)
  ∧ NoDup (testStorage.keys s)
  ∧ testStorage.keys (testStorage.clear s) = []
  ∧ (∀ k, testStorage.plain_key k →
       testStorage.getItem k (testStorage.clear s) = VNull)
  ∧ testStorage.plain_keys (testStorage.setItem key val s).2
  ∧ testStorage.plain_keys (testStorage.removeItem key s).2
  ∧ testStorage.plain_keys (testStorage.clear s).
Proof.
  intros Hkey Hs.
  assert (∀ k, k ∈ testStorage.keys (testStorage.setItem key val s).2
               ↔ k = key ∨ k ∈ testStorage.keys s) as Hset.
  { intros k. unfold testStorage.setItem. cbn [snd].
    rewrite !testStorage_keys_elem.
    destruct (decide (key = k)) as [->|Hne].
    - rewrite lookup_insert_eq. split; [by left | by eexists].
    - rewrite lookup_insert_ne by done.
      split; [by right | by intros [?|?]; [congruence|]]. }
  assert (∀ k, k ∈ testStorage.keys (testStorage.removeItem key s).2
               ↔ k ∈ testStorage.keys s ∧ k ≠ key) as Hremove.
  { intros k. unfold testStorage.removeItem. cbn [snd].
    rewrite !testStorage_keys_elem.
    destruct (decide (key = k)) as [->|Hne].
    - rewrite lookup_delete_eq. split; [by intros [? ?] | by intros [_ ?]].
    - rewrite lookup_delete_ne by done.
      split; [intros ?; split; congruence | by intros [? _]]. }
  assert (testStorage.keys (testStorage.clear s) = []) as Hclear.
  { unfold testStorage.keys, testStorage.clear. by rewrite map_to_list_empty. }
  unfold testStorage.plain_keys in *. rewrite Forall_forall in Hs.
  split.
  { unfold testStorage.getItem, testStorage.setItem. cbn [snd].
    rewrite lookup_insert_eq. by destruct val. }
  split.
  { unfold testStorage.getItem, testStorage.removeItem. cbn [snd].
    by rewrite lookup_delete_eq. }
  split.
  { intros other _ Hne.
    unfold testStorage.getItem, testStorage.setItem, testStorage.removeItem.
    cbn [snd]. by rewrite lookup_insert_ne, lookup_delete_ne. }
  split; [done|]. split; [done|].
  split; [apply NoDup_fst_map_to_list|].
  split; [done|].
  split.
  { intros k _. unfold testStorage.getItem, testStorage.clear.
    by rewrite lookup_empty. }
  split.
  { apply Forall_forall. intros k [->|Hin]%Hset; [done | by apply Hs]. }
  split.
  { apply Forall_forall. intros k [Hin _]%Hremove. by apply Hs. }
  rewrite Hclear. apply Forall_nil_2.
Qed.

Lemma testStorage_round_trip_witness :
  testStorage.getItem "k" (testStorage.setItem "k" VUndefined ∅).2 = VNull
  ∧ testStorage.keys (testStorage.setItem "k" VUndefined ∅).2 = ["k"]
  ∧ testStorage.plain_keys four_items
  ∧ testStorage.getItem "a" (testStorage.setItem "k" (VNum (Int 7)) four_items).2
    = VStr "foo"
  ∧ testStorage.getItem "k" (testStorage.setItem "k" (VNum (Int 7)) four_items).2
    = VNum (Int 7).
Proof.
  assert (testStorage.plain_key "k") as Hk
    by (apply (bool_decide_unpack _); vm_compute; exact I).
  assert (testStorage.plain_key "a") as Ha
    by (apply (bool_decide_unpack _); vm_compute; exact I).
  assert (testStorage.plain_keys four_items) as Hfour
    by (apply (bool_decide_unpack _); vm_compute; exact I).
  destruct (testStorage_round_trip "k" VUndefined ∅ Hk) as (Hundef & _).
  { apply (bool_decide_unpack _). vm_compute. exact I. }
  destruct (testStorage_round_trip "k" (VNum (Int 7)) four_items Hk Hfour)
    as (Hnum & _ & Hother & _).
  split; [exact Hundef|]. split; [by vm_compute|]. split; [exact Hfour|].
  split; [|exact Hnum]. rewrite (proj1 (Hother "a" Ha ltac:(done))).
  by vm_compute.
Defined.

(** ** An expiration that is a string *)

(** X17. An expiration given as a non-empty string is not added to the
    timestamp but appended to it: the expiry record holds the decimal
    numeral of the timestamp followed by the text, and the time left is what
    [parseInt] reads in that text, minus the timestamp.  So ["10"] at time 5
    records the instant 510, not 15. *)
Theorem setItem_string_expiration {S : Type} `{StorageLaws S}
    (key txt : string) (val : value) (now now' : Z) (s : S) :
  txt ≠ EmptyString →
  expiry_record key (setItem key val (VStr txt) now s).2
  = VStr (pretty now +:+ txt)
  ∧ (getTimeLeft key now' (setItem key val (VStr txt) now s).2).1
    = match parseInt_string (pretty now +:+ txt) with
      | Int e => if e =? 0 then VNull else VNum (Int (e - now'))
      | _ => VNull
      end.
Proof.
  intros Htxt.
  assert (expiry_record key (setItem key val (VStr txt) now s).2
          = VStr (pretty now +:+ txt)) as Hrec.
  { rewrite setItem_eq. cbn [snd truthy].
    destruct (String.eqb_spec txt "") as [?|_]; [done|]. cbn [negb].
    rewrite updateExpiration_eq. unfold expiry_record.
    apply getItem_setItem_str. }
  split; [done|]. by rewrite getTimeLeft_eq, Hrec.
Qed.

Lemma setItem_string_expiration_witness :
  expiry_record "K" (setItem "K" (VStr "v") (VStr "10") 5
                       (∅ : gmap string value)).2 = VStr "510"
  ∧ (getTimeLeft "K" 5 (setItem "K" (VStr "v") (VStr "10") 5
                          (∅ : gmap string value)).2).1 = VNum (Int 505).
Proof.
  destruct (setItem_string_expiration "K" "10" (VStr "v") 5 5
              (∅ : gmap string value) ltac:(done)) as [Hrec Hleft].
  split; [rewrite Hrec | rewrite Hleft]; by vm_compute.
Defined.
